(** * A forwarding HTTP/1.x proxy: model of [httpProxy.go] and its properties

    The development follows the Go source function by function.  Go strings
    and byte slices are both sequences of bytes and are modelled by one type,
    [bytes]; the conversions [string(b)] and [[]byte(s)] are the identity.

    A connection is modelled by what its [Read] and [Write] calls return: the
    segments (and error reports) still to be read from it, and the answers
    its next writes will get.  The functions of the proxy pass these states
    along explicitly.  Every [for] loop is a fixpoint on a fuel computed from
    the state of the connections; the lemmas [*_total] show that the fuel is
    always enough, so a result [None] never occurs.  A run-time panic is a
    result of its own ([Panics]). *)

From Stdlib Require Import Ascii String Bool Arith ZArith NArith Lia List.
Import ListNotations.

Open Scope list_scope.

(** ** Bytes and byte literals *)

Definition bytes := list ascii.

(** A literal without control characters. *)
Definition B (s : string) : bytes := list_ascii_of_string s.

Definition CR : ascii := "013"%char.
Definition LF : ascii := "010"%char.
Definition CRLF : bytes := [CR; LF].
Definition CRLFCRLF : bytes := [CR; LF; CR; LF].

Definition byteval (c : ascii) : N := N_of_ascii c.

Fixpoint bytes_eqb (a b : bytes) : bool :=
  match a, b with
  | [], [] => true
  | x :: a', y :: b' => Ascii.eqb x y && bytes_eqb a' b'
  | _, _ => false
  end.

(** ** Go's run-time panics and the slice expression *)

Inductive runtimeError :=
| SliceBoundsOutOfRange (lo hi : Z).

Inductive outcome (A : Type) :=
| Returns (a : A)
| Panics (e : runtimeError).
Arguments Returns {A} a.
Arguments Panics {A} e.

Definition len (s : bytes) : Z := Z.of_nat (length s).

(** [s[lo:hi]]: Go checks [0 <= lo <= hi <= len(s)] and panics otherwise. *)
Definition slice (s : bytes) (lo hi : Z) : outcome bytes :=
  if ((0 <=? lo) && (lo <=? hi) && (hi <=? len s))%Z
  then Returns (firstn (Z.to_nat (hi - lo)) (skipn (Z.to_nat lo) s))
  else Panics (SliceBoundsOutOfRange lo hi).

(** [s[lo:]] is [s[lo:len(s)]]. *)
Definition sliceFrom (s : bytes) (lo : Z) : outcome bytes := slice s lo (len s).

(** ** The functions of packages [bytes] and [strings] that the proxy calls *)

Fixpoint HasPrefix (s prefix : bytes) : bool :=
  match prefix, s with
  | [], _ => true
  | p :: prefix', c :: s' => Ascii.eqb c p && HasPrefix s' prefix'
  | _ :: _, [] => false
  end.

(** Position of the first instance of [sep] in [s]. *)
Fixpoint IndexNat (s sep : bytes) : option nat :=
  if HasPrefix s sep then Some 0
  else match s with
       | [] => None
       | _ :: s' => option_map S (IndexNat s' sep)
       end.

(** [strings.Index] / [bytes.Index]: -1 when [sep] is absent. *)
Definition Index (s sep : bytes) : Z :=
  match IndexNat s sep with
  | Some i => Z.of_nat i
  | None => (-1)%Z
  end.

(** [bytes.Contains]: [Index(b, subslice) != -1]. *)
Definition Contains (s sep : bytes) : bool :=
  negb (Index s sep =? -1)%Z.

(** [bytes.Count] for a non-empty separator: non-overlapping instances,
    found left to right.  Each round drops at least one byte, so [length s]
    rounds are enough. *)
Fixpoint Count_loop (fuel : nat) (s sep : bytes) : nat :=
  match fuel with
  | O => O
  | S fuel' =>
      match IndexNat s sep with
      | None => O
      | Some i => S (Count_loop fuel' (skipn (i + length sep) s) sep)
      end
  end.

Definition Count (s sep : bytes) : nat := Count_loop (length s) s sep.

(** The loop of [genSplit] (non-empty separator, nothing kept of it): at
    most [n] cuts, the rest of [s] is the last element. *)
Fixpoint genSplit_loop (n : nat) (s sep : bytes) : list bytes :=
  match n with
  | O => [s]
  | S n' =>
      match IndexNat s sep with
      | None => [s]
      | Some m => firstn m s :: genSplit_loop n' (skipn (m + length sep) s) sep
      end
  end.

(** [bytes.Split(s, sep)] is [genSplit(s, sep, 0, -1)]: [Count(s, sep)] cuts. *)
Definition Split (s sep : bytes) : list bytes :=
  genSplit_loop (Count s sep) s sep.

(** [bytes.SplitN(s, sep, n)] for [n > 0]: at most [n - 1] cuts. *)
Definition SplitN (s sep : bytes) (n : nat) : list bytes :=
  genSplit_loop (pred n) s sep.

Fixpoint Join (s : list bytes) (sep : bytes) : bytes :=
  match s with
  | [] => []
  | [a] => a
  | a :: rest => a ++ sep ++ Join rest sep
  end.

(** *** [strings.TrimSpace]

    White space is Unicode's [White_Space]: the six ASCII characters below
    and the UTF-8 encodings of U+0085, U+00A0, U+1680, U+2000..U+200A,
    U+2028, U+2029, U+202F, U+205F and U+3000.  A byte sequence that is not
    one of these encodings decodes to a rune that is not a space. *)

Definition asciiSpace (c : ascii) : bool :=
  let n := byteval c in
  ((9 <=? n) && (n <=? 13) || (n =? 32))%N.

Definition space2 (c1 c2 : ascii) : bool :=
  ((byteval c1 =? 194) && ((byteval c2 =? 133) || (byteval c2 =? 160)))%N.

Definition space3 (c1 c2 c3 : ascii) : bool :=
  let n1 := byteval c1 in
  let n2 := byteval c2 in
  let n3 := byteval c3 in
  ((n1 =? 225) && (n2 =? 154) && (n3 =? 128)
   || (n1 =? 226) && (n2 =? 128)
      && ((128 <=? n3) && (n3 <=? 138) || (n3 =? 168) || (n3 =? 169) || (n3 =? 175))
   || (n1 =? 226) && (n2 =? 129) && (n3 =? 159)
   || (n1 =? 227) && (n2 =? 128) && (n3 =? 128))%N.

(** Drops the leading runes that satisfy the tests: [sp2] and [sp3] receive
    the bytes in the order they stand in [s]. *)
Fixpoint trimFront (sp2 : ascii -> ascii -> bool)
  (sp3 : ascii -> ascii -> ascii -> bool) (s : bytes) : bytes :=
  match s with
  | [] => []
  | c1 :: t1 =>
      if asciiSpace c1 then trimFront sp2 sp3 t1
      else match t1 with
           | [] => s
           | c2 :: t2 =>
               if sp2 c1 c2 then trimFront sp2 sp3 t2
               else match t2 with
                    | [] => s
                    | c3 :: t3 =>
                        if sp3 c1 c2 c3 then trimFront sp2 sp3 t3 else s
                    end
           end
  end.

Definition TrimLeftSpace (s : bytes) : bytes := trimFront space2 space3 s.

(** The trailing runes are the leading ones of the reversed string, their
    bytes reversed. *)
Definition TrimRightSpace (s : bytes) : bytes :=
  rev (trimFront (fun c2 c1 => space2 c1 c2)
                 (fun c3 c2 c1 => space3 c1 c2 c3) (rev s)).

Definition TrimSpace (s : bytes) : bytes := TrimRightSpace (TrimLeftSpace s).

(** *** The ASCII part of [strings.ToLower] *)

Definition isASCII (s : bytes) : bool :=
  forallb (fun c => (byteval c <? 128)%N) s.

Definition lowerASCII (c : ascii) : ascii :=
  let n := byteval c in
  if ((65 <=? n) && (n <=? 90))%N then ascii_of_N (n + 32) else c.

(** ** Errors, readers, writers and connections *)

(** Go error values: the sentinel [io.EOF], any other error a connection
    reports, and the errors built by [fmt.Errorf], with or without [%w]. *)
Inductive error :=
| io_EOF
| net_error (code : nat)
| Errorf (msg : string)
| ErrorfW (msg : string) (err : error).

(** The read side of a connection is the sequence of segments the peer will
    deliver, each with the error (if any) that the [Read] returning its last
    byte reports with it.  A segment without bytes and without error is a
    [Read] that returns [0, nil].  After the last segment every [Read]
    returns [0, io.EOF]. *)
Definition readResult := (bytes * option error)%type.
Definition reader := list readResult.

(** The write side: the bytes accepted so far and, for the coming [Write]
    calls, how many bytes each will accept at most and the error it reports.
    When the list is used up, a [Write] accepts all its bytes. *)
Record writer := mkWriter {
  written : bytes;
  responses : list (nat * option error)
}.

Record conn := mkConn { rx : reader; tx : writer }.

Definition withRx (c : conn) (r : reader) : conn := mkConn r (tx c).
Definition withTx (c : conn) (w : writer) : conn := mkConn (rx c) w.

(** [n, err := r.Read(buf)] with [len(buf) = cap]: the bytes placed in
    [buf[:n]], the error, and the reader afterwards. *)
Definition Read (cap : Z) (r : reader) : readResult * reader :=
  match r with
  | [] => (([], Some io_EOF), [])
  | (bs, e) :: rest =>
      if (len bs <=? cap)%Z then ((bs, e), rest)
      else ((firstn (Z.to_nat cap) bs, None), (skipn (Z.to_nat cap) bs, e) :: rest)
  end.

(** [n, err := w.Write(p)]. *)
Definition Write (p : bytes) (w : writer) : (nat * option error) * writer :=
  match responses w with
  | [] => ((length p, None), mkWriter (written w ++ p) [])
  | (k, e) :: rest =>
      let n := Nat.min k (length p) in
      ((n, e), mkWriter (written w ++ firstn n p) rest)
  end.

(** What a reader still holds: the fuel of the loops that read it. *)
Fixpoint pending (r : reader) : nat :=
  match r with
  | [] => O
  | (bs, _) :: rest => S (length bs + pending rest)
  end.

(** ** [copyData] *)

(** The inner loop [for offset < n]. *)
Fixpoint flush_loop (fuel : nat) (dst : writer) (chunk : bytes) (offset : nat)
  : option (option error * writer) :=
  if length chunk <=? offset then Some (None, dst)
  else match fuel with
       | O => None
       | S fuel' =>
           let '((w, werr), dst') := Write (skipn offset chunk) dst in
           match werr with
           | Some e => Some (Some (ErrorfW "write error: %w" e), dst')
           | None => flush_loop fuel' dst' chunk (offset + w)
           end
       end.

(** The body of [if n > 0 { ... }] in [copyData]. *)
Definition copyChunk (dst : writer) (chunk : bytes) : option (option error * writer) :=
  let '((n, writeErr), dst') := Write chunk dst in
  match writeErr with
  | Some e => Some (Some (ErrorfW "write error: %w" e), dst')
  | None =>
      if n <? length chunk
      then flush_loop (S (length (responses dst'))) dst' chunk n
      else Some (None, dst')
  end.

Definition bufSize32K : Z := 32 * 1024.

Fixpoint copyData_loop (fuel : nat) (dst : writer) (src : reader)
  : option (option error * writer * reader) :=
  match fuel with
  | O => None
  | S fuel' =>
      let '((chunk, readErr), src') := Read bufSize32K src in
      match (if 0 <? length chunk then copyChunk dst chunk else Some (None, dst)) with
      | None => None
      | Some (Some e, dst') => Some (Some e, dst', src')
      | Some (None, dst') =>
          match readErr with
          | Some io_EOF => Some (None, dst', src')
          | Some e => Some (Some (ErrorfW "read error: %w" e), dst', src')
          | None => copyData_loop fuel' dst' src'
          end
      end
  end.

Definition copyData (dst : writer) (src : reader)
  : option (option error * writer * reader) :=
  copyData_loop (S (pending src)) dst src.

(** ** [proxyResponseWithHeaderInjection] *)

(** The header scan: one byte per [Read], until the buffer holds the
    terminator.  [inl] is the error returned, [inr] the buffer at [break]. *)
Fixpoint readHeader_loop (fuel : nat) (upstream : reader) (headerBuf : bytes)
  : option ((error + bytes) * reader) :=
  match fuel with
  | O => None
  | S fuel' =>
      let '((tmp, err), upstream') := Read 1 upstream in
      match err with
      | Some e => Some (inl (ErrorfW "error reading response header: %w" e), upstream')
      | None =>
          let headerBuf' := if 0 <? length tmp then headerBuf ++ tmp else headerBuf in
          if Contains headerBuf' CRLFCRLF then Some (inr headerBuf', upstream')
          else readHeader_loop fuel' upstream' headerBuf'
      end
  end.

Definition readHeader (upstream : reader) : option ((error + bytes) * reader) :=
  readHeader_loop (S (pending upstream)) upstream [].

(** Lines 196-201: the header section with the line [Foo: Bar] appended. *)
Definition injectHeader (headerSection : bytes) : bytes :=
  let lines := Split headerSection CRLF in
  let lines := lines ++ [B "Foo: Bar"] in
  let modifiedHeader := Join lines CRLF in
  modifiedHeader ++ CRLFCRLF.

(** The result is the returned error and the two connections afterwards. *)
Definition proxyResponseWithHeaderInjection (upstream client : conn)
  : option (option error * conn * conn) :=
  match readHeader (rx upstream) with
  | None => None
  | Some (inl e, urx) => Some (Some e, withRx upstream urx, client)
  | Some (inr rawHeaders, urx) =>
      let upstream := withRx upstream urx in
      match SplitN rawHeaders CRLFCRLF 2 with
      | headerSection :: leftover :: _ =>
          let '((_, err), ctx) := Write (injectHeader headerSection) (tx client) in
          match err with
          | Some e =>
              Some (Some (ErrorfW "error writing modified headers to client: %w" e),
                    upstream, withTx client ctx)
          | None =>
              let '((_, err), ctx) :=
                if 0 <? length leftover then Write leftover ctx
                else ((O, None), ctx) in
              match err with
              | Some e =>
                  Some (Some (ErrorfW "error writing leftover body data to client: %w" e),
                        upstream, withTx client ctx)
              | None =>
                  match copyData ctx (rx upstream) with
                  | None => None
                  | Some (err, ctx, urx) =>
                      Some (err, withRx upstream urx, withTx client ctx)
                  end
              end
          end
      | _ => Some (Some (Errorf "malformed HTTP response headers"), upstream, client)
      end
  end.

(** ** [proxyData] *)

(** What a session does besides reading and writing: the dial, the two
    closes, the log lines, and a panic that ends it. *)
Inductive peer := Client | Upstream.

Inductive effect :=
| Dial
| Close (c : peer)
| Printf (format : string) (e : error)
| Println (msg : string)
| Panicked (e : runtimeError).

Definition bufSize4K : Z := 4096.

(** The loop of the client-to-upstream direction (lines 119-135). *)
Fixpoint proxyData_loop (fuel : nat) (src : reader) (dst : writer)
  : option (list effect * reader * writer) :=
  match fuel with
  | O => None
  | S fuel' =>
      let '((chunk, err), src') := Read bufSize4K src in
      let '((_, writeErr), dst') :=
        if 0 <? length chunk then Write chunk dst else ((O, None), dst) in
      match writeErr with
      | Some e => Some ([Printf "Error writing data: %v" e], src', dst')
      | None =>
          match err with
          | Some io_EOF => Some ([], src', dst')
          | Some e => Some ([Printf "Error reading data: %v" e], src', dst')
          | None => proxyData_loop fuel' src' dst'
          end
      end
  end.

(** The result is the log and the two connections, source first. *)
Definition proxyData (srcConn destConn : conn) (proxyDir : string)
  : option (list effect * conn * conn) :=
  if String.eqb proxyDir "UPSTREAM -> CLIENT" then
    match proxyResponseWithHeaderInjection srcConn destConn with
    | None => None
    | Some (_, srcConn', destConn') => Some ([], srcConn', destConn')
    end
  else
    match proxyData_loop (S (pending (rx srcConn))) (rx srcConn) (tx destConn) with
    | None => None
    | Some (log, srx, dtx) => Some (log, withRx srcConn srx, withTx destConn dtx)
    end.

(** ** [parseHTTPHeaders] *)

(** The [range] loop over the lines. *)
Fixpoint scanConnection (lines : list bytes) : outcome bytes :=
  match lines with
  | [] => Returns []
  | line :: rest =>
      if HasPrefix line (B "Connection:") then
        match sliceFrom line (len (B "Connection: ")) with
        | Returns v => Returns (TrimSpace v)
        | Panics e => Panics e
        end
      else scanConnection rest
  end.

Definition parseHTTPHeaders (request : bytes) : outcome (bytes * bytes) :=
  let idx := Index request (B "HTTP/") in
  match (if negb (idx =? -1)%Z && (len request >? idx + 8)%Z
         then slice request (idx + 5) (idx + 8)
         else Returns []) with
  | Panics e => Panics e
  | Returns version =>
      match scanConnection (Split request CRLF) with
      | Panics e => Panics e
      | Returns connection => Returns (version, connection)
      end
  end.

(** ** Vocabulary of the statements *)

(** The bytes a reader hands out up to its first error, that error
    ([io.EOF] when the segments run out), and what follows it. *)
Fixpoint delivered (r : reader) : bytes :=
  match r with
  | [] => []
  | (bs, None) :: rest => bs ++ delivered rest
  | (bs, Some _) :: _ => bs
  end.

Fixpoint ending (r : reader) : error :=
  match r with
  | [] => io_EOF
  | (_, None) :: rest => ending rest
  | (_, Some e) :: _ => e
  end.

Fixpoint remaining (r : reader) : reader :=
  match r with
  | [] => []
  | (_, None) :: rest => remaining rest
  | (_, Some _) :: rest => rest
  end.

(** The bytes the header scan can put in its buffer: a [Read] of one byte
    that reports an error is not looked at, so the last byte of the segment
    that comes with the first error is never among them. *)
Fixpoint scanned (r : reader) : bytes :=
  match r with
  | [] => []
  | (bs, None) :: rest => bs ++ scanned rest
  | (bs, Some _) :: _ => removelast bs
  end.

(** A reader that reports no error before its segments run out. *)
Definition clean (r : reader) : Prop := Forall (fun ev => snd ev = None) r.

(** A writer that reports no error (it may accept fewer bytes than given). *)
Definition errorFree (w : writer) : Prop :=
  Forall (fun p => snd p = None) (responses w).

(** [p] ends with its first instance of [sep]. *)
Definition endsAtFirst (p sep : bytes) : Prop :=
  exists h, p = h ++ sep /\ IndexNat p sep = Some (length h).

(** What [copyData] returns for the error that ends the source. *)
Definition copyResult (e : error) : option error :=
  match e with
  | io_EOF => None
  | _ => Some (ErrorfW "read error: %w" e)
  end.

(** What the client-to-upstream loop logs for the error that ends its source. *)
Definition readLog (e : error) : list effect :=
  match e with
  | io_EOF => []
  | _ => [Printf "Error reading data: %v" e]
  end.

(** An error built with [%w], or none. *)
Definition wrapped (err : option error) : Prop :=
  match err with
  | Some (ErrorfW _ _) | None => True
  | Some _ => False
  end.

Definition notConnectionLine (line : bytes) : Prop :=
  HasPrefix line (B "Connection:") = false.

(** Requests and a response for the concrete sessions. *)
Definition requestKeepAlive : bytes :=
  B "GET / HTTP/1.1" ++ CRLF ++ B "Host: example" ++ CRLF ++ CRLF.

Definition requestClose : bytes :=
  B "GET / HTTP/1.1" ++ CRLF ++ B "Connection: close" ++ CRLF ++ CRLF.

Definition responseOK : bytes :=
  B "HTTP/1.1 200 OK" ++ CRLF ++ B "Content-Length: 2" ++ CRLF ++ CRLF ++ B "ok".

(** An instance of the case mapping below, for evaluating the model: it is
    consulted only for strings that hold a byte above 127. *)
Definition noCaseMapping (s : bytes) : bytes := s.

Section Proxy.

(** [strings.Map(unicode.ToLower, s)], which [strings.ToLower] returns for a
    string that is not pure ASCII.  Unicode's case tables are no part of the
    repository: every result below holds whatever they are. *)
Variable mapUnicodeToLower : bytes -> bytes.

Definition ToLower (s : bytes) : bytes :=
  if isASCII s then map lowerASCII s else mapUnicodeToLower s.

(** ** [shouldKeepAlive] *)

Definition shouldKeepAlive (version connHeader : bytes) : bool :=
  let ver := TrimSpace version in
  let ch := ToLower (TrimSpace connHeader) in
  if bytes_eqb ver (B "1.0") && bytes_eqb ch (B "keep-alive") then true
  else if bytes_eqb ver (B "1.1") && negb (bytes_eqb ch (B "close")) then true
  else false.

(** ** [handleProxyConnection] *)

(** The [for] loop of the session.  The two goroutines of a cycle work on
    different halves of the two connections: one reads [upstream] and writes
    [client], the other reads [client] and writes [upstream].  The model
    runs them one after the other, the response relay first; the other
    order gives the same result ([relays_commute] below). *)
Fixpoint session_loop (fuel : nat) (clientConn upstreamConn : conn)
  : option (list effect * conn * conn) :=
  match fuel with
  | O => None
  | S fuel' =>
      let '((request, err), crx) := Read bufSize4K (rx clientConn) in
      let clientConn := withRx clientConn crx in
      match err with
      | Some io_EOF => Some ([], clientConn, upstreamConn)
      | Some e => Some ([Printf "Error reading from client: %v" e], clientConn, upstreamConn)
      | None =>
          if length request =? 0 then Some ([], clientConn, upstreamConn)
          else
            match parseHTTPHeaders request with
            | Panics e => Some ([Panicked e], clientConn, upstreamConn)
            | Returns (version, connectionHeader) =>
                let '((_, werr), utx) := Write request (tx upstreamConn) in
                let upstreamConn := withTx upstreamConn utx in
                match werr with
                | Some e =>
                    Some ([Printf "Error writing to upstream: %v" e], clientConn, upstreamConn)
                | None =>
                    match proxyData upstreamConn clientConn "UPSTREAM -> CLIENT" with
                    | None => None
                    | Some (log1, upstreamConn, clientConn) =>
                        match proxyData clientConn upstreamConn "CLIENT -> UPSTREAM" with
                        | None => None
                        | Some (log2, clientConn, upstreamConn) =>
                            if shouldKeepAlive version connectionHeader then
                              match session_loop fuel' clientConn upstreamConn with
                              | None => None
                              | Some (log, c, u) =>
                                  Some (log1 ++ log2
                                        ++ Println "Connection kept alive for next request." :: log,
                                        c, u)
                              end
                            else
                              Some (log1 ++ log2
                                    ++ [Println "Connection closing (not keep-alive)."],
                                    clientConn, upstreamConn)
                        end
                    end
                end
            end
      end
  end.

(** [dial] is what [net.Dial] returns.  The result is the trace of the
    session, the client connection and, when the dial succeeded, the
    upstream connection.  The deferred closes run last, upstream first. *)
Definition handleProxyConnection (clientConn : conn) (dial : error + conn)
  : option (list effect * conn * option conn) :=
  match dial with
  | inl e =>
      Some ([Dial; Printf "Error connecting to upstream: %v" e; Close Client],
            clientConn, None)
  | inr upstreamConn =>
      match session_loop (S (pending (rx clientConn))) clientConn upstreamConn with
      | None => None
      | Some (log, c, u) =>
          Some (Dial :: log ++ [Close Upstream; Close Client], c, Some u)
      end
  end.

(** ** The keep-alive table of the specification *)

Inductive decision := Continue | Terminate.

Definition decisionOf (keepAlive : bool) : decision :=
  if keepAlive then Continue else Terminate.

(** Comparison without regard to case: equal after lower-casing. *)
Definition equalFold (a b : bytes) : bool :=
  bytes_eqb (ToLower a) (ToLower b).

(** The table, row by row: the version is compared as it is given, the
    Connection value trimmed and without regard to case. *)
Definition KeepAliveDecider_table (version connection : bytes) : decision :=
  if bytes_eqb version (B "1.0") then
    if equalFold (TrimSpace connection) (B "keep-alive") then Continue else Terminate
  else if bytes_eqb version (B "1.1") then
    if equalFold (TrimSpace connection) (B "close") then Terminate else Continue
  else Terminate.

(** ** Sessions and their traces *)

Definition keptAlive : effect := Println "Connection kept alive for next request.".
Definition closing : effect := Println "Connection closing (not keep-alive).".

(** A cycle that runs to its end logs one of the two decisions. *)
Definition isDecision (e : effect) : bool :=
  match e with
  | Println msg =>
      String.eqb msg "Connection kept alive for next request."
      || String.eqb msg "Connection closing (not keep-alive)."
  | _ => false
  end.

Definition cycles (trace : list effect) : nat := length (filter isDecision trace).

Definition dials (trace : list effect) : nat :=
  length (filter (fun e => match e with Dial => true | _ => false end) trace).

(** A request that one [Read] of the session returns whole. *)
Definition oneRead (request : bytes) : Prop :=
  0 < length request /\ (len request <= bufSize4K)%Z.

(** A [Read] that returns [0, io.EOF]. *)
Definition eofReport : readResult := ([], Some io_EOF).

(** The error reports a reader holds. *)
Fixpoint reports (r : reader) : nat :=
  match r with
  | [] => O
  | (_, None) :: rest => reports rest
  | (_, Some _) :: rest => S (reports rest)
  end.

(** The cycles a reader still allows: none when it is used up, and
    otherwise one more than it has reports. *)
Definition cyclesLeft (r : reader) : nat :=
  match r with
  | [] => 0
  | _ => S (reports r)
  end.

(** An effect that is neither the dial nor a close. *)
Definition quiet (e : effect) : Prop :=
  match e with
  | Dial | Close _ => False
  | _ => True
  end.

(** ** [runHttpProxy] *)










(** * Properties *)

(** ** The library functions at work *)

Example TrimSpace_ascii :
  TrimSpace (B "  keep-alive " ++ CRLF) = B "keep-alive".
Proof. reflexivity. Qed.

(** A no-break space (U+00A0) before and an en quad (U+2000) after. *)
Example TrimSpace_unicode :
  TrimSpace ([ascii_of_nat 194; ascii_of_nat 160] ++ B "close"
             ++ [ascii_of_nat 226; ascii_of_nat 128; ascii_of_nat 128])
  = B "close".
Proof. reflexivity. Qed.

Example Index_absent : Index (B "GET / HTTP/1.1") CRLF = (-1)%Z.
Proof. reflexivity. Qed.

Example Split_lines :
  Split (B "a" ++ CRLF ++ B "b" ++ CRLF ++ CRLF) CRLF = [B "a"; B "b"; []; []].
Proof. reflexivity. Qed.

Example parseHTTPHeaders_close :
  parseHTTPHeaders requestClose = Returns (B "1.1", B "close").
Proof. reflexivity. Qed.

Example ToLower_ascii : ToLower (B "Keep-Alive") = B "keep-alive".
Proof. reflexivity. Qed.

(** ** Prefixes and first occurrences *)

Lemma bytes_eqb_eq (a b : bytes) : bytes_eqb a b = true <-> a = b.
Proof.
  revert b; induction a as [|x a IH]; intros [|y b]; simpl; split; intro H;
    try reflexivity; try discriminate.
  - apply andb_true_iff in H as [Hx Hab].
    apply Ascii.eqb_eq in Hx. apply IH in Hab. now subst.
  - injection H as -> ->. rewrite Ascii.eqb_refl. simpl. now apply IH.
Qed.

Lemma HasPrefix_iff (s p : bytes) :
  HasPrefix s p = true <-> exists t, s = p ++ t.
Proof.
  revert s; induction p as [|x p IH]; intros s; simpl.
  - split; [intros _; now exists s | intros _; now destruct s].
  - destruct s as [|c s]; simpl.
    + split; [discriminate | intros [t Ht]; discriminate].
    + rewrite andb_true_iff, Ascii.eqb_eq, IH. split.
      * intros [-> [t ->]]. now exists t.
      * intros [t Ht]. injection Ht as -> ->. split; [reflexivity | now exists t].
Qed.

Lemma IndexNat_unfold (s sep : bytes) :
  IndexNat s sep =
  if HasPrefix s sep then Some 0
  else match s with
       | [] => None
       | _ :: s' => option_map S (IndexNat s' sep)
       end.
Proof. destruct s; reflexivity. Qed.

(** An index found is the position of an instance. *)
Lemma IndexNat_Some (s sep : bytes) (i : nat) :
  IndexNat s sep = Some i ->
  exists a c, s = a ++ sep ++ c /\ length a = i.
Proof.
  revert i; induction s as [|x s IH]; intros i; rewrite IndexNat_unfold.
  - destruct (HasPrefix [] sep) eqn:E; [|discriminate].
    intros [= <-]. apply HasPrefix_iff in E as [t Ht].
    exists [], t. now split.
  - destruct (HasPrefix (x :: s) sep) eqn:E.
    + intros [= <-]. apply HasPrefix_iff in E as [t Ht].
      exists [], t. now split.
    + destruct (IndexNat s sep) as [j|] eqn:Ej; simpl; [|discriminate].
      intros [= <-]. destruct (IH j eq_refl) as (a & c & -> & <-).
      exists (x :: a), c. now split.
Qed.

(** It is the first one. *)
Lemma IndexNat_first (s sep a c : bytes) :
  s = a ++ sep ++ c ->
  exists i, IndexNat s sep = Some i /\ i <= length a.
Proof.
  revert a; induction s as [|x s IH]; intros a Hs; rewrite IndexNat_unfold.
  - destruct (HasPrefix [] sep) eqn:E.
    + exists 0. split; [reflexivity | lia].
    + assert (HasPrefix [] sep = true) as E'.
      { apply HasPrefix_iff. exists c.
        destruct a; [exact Hs | discriminate]. }
      congruence.
  - destruct (HasPrefix (x :: s) sep) eqn:E.
    + exists 0. split; [reflexivity | lia].
    + destruct a as [|y a].
      * assert (HasPrefix (x :: s) sep = true) as E'
          by (apply HasPrefix_iff; now exists c).
        congruence.
      * injection Hs as -> Hs. destruct (IH a Hs) as (i & -> & Hi).
        exists (S i). split; [reflexivity | simpl; lia].
Qed.

Lemma Contains_iff (s sep : bytes) :
  Contains s sep = true <-> exists a c, s = a ++ sep ++ c.
Proof.
  unfold Contains, Index. split.
  - destruct (IndexNat s sep) as [i|] eqn:E.
    + intros _. destruct (IndexNat_Some _ _ _ E) as (a & c & H & _). now exists a, c.
    + simpl. discriminate.
  - intros (a & c & H). destruct (IndexNat_first _ _ _ _ H) as (i & -> & _).
    destruct (Z.eqb_spec (Z.of_nat i) (-1)); [lia | reflexivity].
Qed.

Lemma Contains_IndexNat (s sep : bytes) :
  Contains s sep = true -> exists i, IndexNat s sep = Some i.
Proof.
  intros H. apply Contains_iff in H as (a & c & H).
  destruct (IndexNat_first _ _ _ _ H) as (i & Hi & _). now exists i.
Qed.

(** What contains the separator still contains it when bytes are added. *)
Lemma Contains_app (s t sep : bytes) :
  Contains s sep = true -> Contains (s ++ t) sep = true.
Proof.
  rewrite !Contains_iff. intros (a & c & ->). exists a, (c ++ t).
  now rewrite <- !app_assoc.
Qed.

Lemma not_Contains_prefix (s t sep : bytes) :
  Contains (s ++ t) sep = false -> Contains s sep = false.
Proof.
  intros H. destruct (Contains s sep) eqn:E; [|reflexivity].
  apply Contains_app with (t := t) in E. congruence.
Qed.

(** The buffer that contains the separator for the first time after one
    more byte ends with it. *)
Lemma first_Contains_at_end (b : bytes) (x : ascii) (sep : bytes) :
  Contains b sep = false ->
  Contains (b ++ [x]) sep = true ->
  endsAtFirst (b ++ [x]) sep.
Proof.
  intros Hb Hx.
  destruct (Contains_IndexNat _ _ Hx) as (i & Hi).
  destruct (IndexNat_Some _ _ _ Hi) as (a & c & Hs & Ha).
  destruct c as [|y c' _] using rev_ind.
  - rewrite app_nil_r in Hs. exists a. split; [exact Hs | now rewrite Ha].
  - assert (b = a ++ sep ++ c') as Hb'.
    { apply (app_inj_tail b (a ++ sep ++ c') x y).
      rewrite Hs. now rewrite <- !app_assoc. }
    assert (Contains b sep = true) by (apply Contains_iff; now exists a, c').
    congruence.
Qed.

(** No proper prefix of such a [p] contains [sep]. *)
Lemma endsAtFirst_prefix (p sep q t : bytes) :
  endsAtFirst p sep -> p = q ++ t -> t <> [] -> Contains q sep = false.
Proof.
  intros (h & Hp & Hi) Hq Ht.
  destruct (Contains q sep) eqn:E; [|reflexivity].
  apply Contains_iff in E as (a & c & ->).
  assert (p = a ++ sep ++ (c ++ t)) as Hp' by (rewrite Hq; now rewrite <- !app_assoc).
  destruct (IndexNat_first _ _ _ _ Hp') as (i & Hi' & Hle).
  assert (i = length h) by congruence. subst i.
  assert (length p = length h + length sep) by (rewrite Hp; apply length_app).
  assert (length p = length a + (length sep + (length c + length t)))
    by (rewrite Hp'; now rewrite !length_app).
  destruct t; [congruence | simpl in *; lia].
Qed.

Lemma endsAtFirst_Contains (p sep : bytes) :
  endsAtFirst p sep -> Contains p sep = true.
Proof.
  intros (h & -> & _). apply Contains_iff. exists h, []. now rewrite app_nil_r.
Qed.

(** Cutting such a [p] once leaves the bytes before the separator and an
    empty rest. *)
Lemma SplitN_endsAtFirst (h sep : bytes) :
  IndexNat (h ++ sep) sep = Some (length h) ->
  SplitN (h ++ sep) sep 2 = [h; []].
Proof.
  intros Hi. unfold SplitN. simpl. rewrite Hi.
  rewrite firstn_app, firstn_all, Nat.sub_diag, firstn_O, app_nil_r.
  rewrite skipn_all2 by (rewrite length_app; lia). reflexivity.
Qed.

(** ** Cutting and joining *)

Lemma IndexNat_skip (s sep : bytes) (i : nat) :
  IndexNat s sep = Some i ->
  s = firstn i s ++ sep ++ skipn (i + length sep) s
  /\ length (skipn (i + length sep) s) + length sep <= length s.
Proof.
  intros H. destruct (IndexNat_Some _ _ _ H) as (a & c & -> & <-).
  assert (skipn (length a + length sep) (a ++ sep ++ c) = c) as Hs.
  { rewrite app_assoc, <- length_app, skipn_app, skipn_all, Nat.sub_diag.
    reflexivity. }
  assert (firstn (length a) (a ++ sep ++ c) = a) as Hf.
  { rewrite firstn_app, firstn_all, Nat.sub_diag. simpl. apply app_nil_r. }
  rewrite Hs, Hf. split; [reflexivity | rewrite !length_app; lia].
Qed.

(** The rounds of [Count] are enough: more of them count the same. *)
Lemma Count_loop_enough (sep : bytes) (fuel : nat) :
  sep <> [] ->
  forall (fuel' : nat) (s : bytes),
    length s <= fuel -> length s <= fuel' ->
    Count_loop fuel s sep = Count_loop fuel' s sep.
Proof.
  intros Hsep. induction fuel as [|fuel IH]; intros fuel' s Hf Hf'.
  - destruct s; [|simpl in Hf; lia].
    destruct fuel'; simpl; [reflexivity|].
    destruct sep; [congruence | reflexivity].
  - destruct fuel' as [|fuel'].
    + destruct s; [|simpl in Hf'; lia]. simpl.
      destruct sep; [congruence | reflexivity].
    + simpl. destruct (IndexNat s sep) as [i|] eqn:E; [|reflexivity].
      f_equal. destruct (IndexNat_skip _ _ _ E) as (_ & Hl).
      assert (0 < length sep) by (destruct sep; [congruence | simpl; lia]).
      apply IH; lia.
Qed.

Lemma genSplit_loop_nonempty (n : nat) (s sep : bytes) : genSplit_loop n s sep <> [].
Proof. destruct n; simpl; [discriminate|]. destruct (IndexNat s sep); discriminate. Qed.

(** Joining the pieces of a string gives the string back, wherever the
    cutting stopped. *)
Lemma Join_genSplit_loop (n : nat) :
  forall s sep : bytes, Join (genSplit_loop n s sep) sep = s.
Proof.
  induction n as [|n IH]; intros s sep; [reflexivity|].
  cbn [genSplit_loop].
  destruct (IndexNat s sep) as [m|] eqn:E; [|reflexivity].
  pose proof (genSplit_loop_nonempty n (skipn (m + length sep) s) sep) as Hne.
  pose proof (IH (skipn (m + length sep) s) sep) as HJ.
  destruct (genSplit_loop n (skipn (m + length sep) s) sep) as [|a rest];
    [congruence|].
  change (Join (firstn m s :: a :: rest) sep)
    with (firstn m s ++ sep ++ Join (a :: rest) sep).
  rewrite HJ. symmetry. now apply IndexNat_skip.
Qed.

Lemma Join_snoc (lines : list bytes) (line sep : bytes) :
  lines <> [] -> Join (lines ++ [line]) sep = Join lines sep ++ sep ++ line.
Proof.
  induction lines as [|a [|b rest] IH]; intros Hne; [congruence | reflexivity |].
  change (Join ((a :: b :: rest) ++ [line]) sep)
    with (a ++ sep ++ Join ((b :: rest) ++ [line]) sep).
  rewrite IH by discriminate.
  change (Join (a :: b :: rest) sep) with (a ++ sep ++ Join (b :: rest) sep).
  now rewrite <- !app_assoc.
Qed.

(** The header section comes back unchanged, followed by the new line and
    the terminator. *)
Lemma injectHeader_appends (headerSection : bytes) :
  injectHeader headerSection
  = headerSection ++ CRLF ++ B "Foo: Bar" ++ CRLFCRLF.
Proof.
  unfold injectHeader, Split.
  rewrite Join_snoc by apply genSplit_loop_nonempty.
  now rewrite Join_genSplit_loop, <- !app_assoc.
Qed.

(** ** Readers and writers *)

Lemma len_firstn_le (cap : Z) (bs : bytes) :
  (0 <= cap)%Z -> (len (firstn (Z.to_nat cap) bs) <= cap)%Z.
Proof.
  intros H. unfold len. rewrite length_firstn. lia.
Qed.

(** One [Read] with a buffer of at least one byte. *)
Lemma Read_spec (cap : Z) (r : reader) :
  (0 < cap)%Z ->
  match Read cap r with
  | ((tmp, None), r') =>
      delivered r = tmp ++ delivered r' /\ ending r = ending r'
      /\ remaining r = remaining r' /\ pending r' < pending r
      /\ (len tmp <= cap)%Z
  | ((tmp, Some e), r') =>
      delivered r = tmp /\ ending r = e /\ remaining r = r'
      /\ pending r' <= pending r /\ (len tmp <= cap)%Z
  end.
Proof.
  intros Hcap. destruct r as [|[bs e] rest]; simpl.
  - repeat split; unfold len; simpl; lia.
  - destruct (Z.leb_spec (len bs) cap) as [Hle|Hgt].
    + destruct e as [e|]; simpl; repeat split; try lia.
    + assert (length (skipn (Z.to_nat cap) bs) < length bs) as Hlt
        by (rewrite length_skipn; unfold len in Hgt; lia).
      pose proof (len_firstn_le cap bs ltac:(lia)) as Hf.
      destruct e as [e|]; simpl; rewrite ?app_assoc, firstn_skipn;
        repeat split; try lia.
Qed.

Lemma Read_clean (cap : Z) (r : reader) :
  clean r -> clean (snd (Read cap r)) /\
  (r <> [] -> snd (fst (Read cap r)) = None).
Proof.
  intros Hc. destruct r as [|[bs e] rest]; simpl.
  - split; [constructor | congruence].
  - inversion Hc as [|? ? He Hrest]; subst. simpl in He. subst e.
    destruct (len bs <=? cap)%Z; simpl; split; auto.
    constructor; [reflexivity | assumption].
Qed.

Lemma clean_ending (r : reader) : clean r -> ending r = io_EOF.
Proof.
  induction 1 as [|[bs e] rest He _ IH]; simpl; [reflexivity|].
  simpl in He. now subst e.
Qed.

Lemma clean_remaining (r : reader) : clean r -> remaining r = [].
Proof.
  induction 1 as [|[bs e] rest He _ IH]; simpl; [reflexivity|].
  simpl in He. now subst e.
Qed.

(** One [Write] to a writer that reports no error. *)
Lemma Write_errorFree (p : bytes) (w : writer) :
  errorFree w ->
  exists n w',
    Write p w = ((n, None), w') /\ n <= length p
    /\ written w' = written w ++ firstn n p
    /\ errorFree w'
    /\ length (responses w') <= length (responses w)
    /\ (n < length p -> length (responses w') < length (responses w)).
Proof.
  unfold errorFree, Write. intros Hw.
  destruct (responses w) as [|[k e] rest] eqn:E.
  - exists (length p), (mkWriter (written w ++ p) []).
    simpl. rewrite firstn_all. repeat split; auto; lia.
  - inversion Hw as [|? ? He Hrest]; subst. simpl in He. subst e.
    exists (Nat.min k (length p)), (mkWriter (written w ++ firstn (Nat.min k (length p)) p) rest).
    simpl. repeat split; auto; lia.
Qed.

(** A writer whose responses are used up accepts everything. *)
Lemma Write_accepting (p : bytes) (w : writer) :
  responses w = [] ->
  Write p w = ((length p, None), mkWriter (written w ++ p) []).
Proof. unfold Write. now intros ->. Qed.

(** ** The copy loops *)

Lemma flush_loop_done (fuel : nat) (dst : writer) (chunk : bytes) (offset : nat) :
  length chunk <= offset -> flush_loop fuel dst chunk offset = Some (None, dst).
Proof.
  intros H. destruct fuel; simpl; destruct (Nat.leb_spec (length chunk) offset);
    try reflexivity; lia.
Qed.

(** The retry loop flushes the rest of the chunk. *)
Lemma flush_loop_errorFree (fuel : nat) :
  forall (dst : writer) (chunk : bytes) (offset : nat),
    errorFree dst -> offset <= length chunk ->
    length (responses dst) < fuel ->
    exists dst',
      flush_loop fuel dst chunk offset = Some (None, dst')
      /\ written dst' = written dst ++ skipn offset chunk
      /\ errorFree dst'.
Proof.
  induction fuel as [|fuel IH]; intros dst chunk offset Hd Ho Hf; [lia|].
  simpl. destruct (Nat.leb_spec (length chunk) offset) as [Hge|Hlt].
  - exists dst. rewrite skipn_all2, app_nil_r by lia. auto.
  - destruct (Write_errorFree (skipn offset chunk) dst Hd)
      as (n & dst1 & HW & Hn & Hw1 & Hd1 & Hr1 & Hr2).
    rewrite HW. rewrite length_skipn in Hn, Hr2.
    destruct (Nat.eq_dec (offset + n) (length chunk)) as [Heq|Hne].
    + rewrite flush_loop_done by lia. exists dst1.
      rewrite Hw1, firstn_all2 by (rewrite length_skipn; lia). auto.
    + destruct (IH dst1 chunk (offset + n) Hd1 ltac:(lia) ltac:(lia))
        as (dst' & -> & Hw' & Hd').
      exists dst'. repeat split; auto.
      rewrite Hw', Hw1, <- app_assoc. f_equal.
      rewrite (Nat.add_comm offset n), <- skipn_skipn. apply firstn_skipn.
Qed.

Lemma copyChunk_errorFree (dst : writer) (chunk : bytes) :
  errorFree dst ->
  exists dst',
    copyChunk dst chunk = Some (None, dst')
    /\ written dst' = written dst ++ chunk
    /\ errorFree dst'.
Proof.
  intros Hd. unfold copyChunk.
  destruct (Write_errorFree chunk dst Hd) as (n & dst1 & -> & Hn & Hw1 & Hd1 & _).
  destruct (Nat.ltb_spec n (length chunk)) as [Hlt|Hge].
  - destruct (flush_loop_errorFree (S (length (responses dst1))) dst1 chunk n
                Hd1 Hn ltac:(lia)) as (dst' & -> & Hw' & Hd').
    exists dst'. repeat split; auto.
    now rewrite Hw', Hw1, <- app_assoc, firstn_skipn.
  - exists dst1. rewrite Hw1, firstn_all2 by lia. auto.
Qed.

Lemma bufSize32K_pos : (0 < bufSize32K)%Z.
Proof. reflexivity. Qed.

Lemma copyData_loop_errorFree (fuel : nat) :
  forall (dst : writer) (src : reader),
    errorFree dst -> pending src < fuel ->
    exists dst',
      copyData_loop fuel dst src = Some (copyResult (ending src), dst', remaining src)
      /\ written dst' = written dst ++ delivered src
      /\ errorFree dst'.
Proof.
  induction fuel as [|fuel IH]; intros dst src Hd Hf; [lia|].
  simpl. pose proof (Read_spec bufSize32K src bufSize32K_pos) as HR.
  destruct (Read bufSize32K src) as [[chunk readErr] src'].
  assert (exists dst1,
            (if 0 <? length chunk then copyChunk dst chunk else Some (None, dst))
            = Some (None, dst1)
            /\ written dst1 = written dst ++ chunk /\ errorFree dst1)
    as (dst1 & -> & Hw1 & Hd1).
  { destruct (Nat.ltb_spec 0 (length chunk)).
    - now apply copyChunk_errorFree.
    - exists dst. destruct chunk; [|simpl in *; lia].
      rewrite app_nil_r. auto. }
  destruct readErr as [e|].
  - destruct HR as (HD & HE & HRm & _). subst e. rewrite HD, HRm.
    exists dst1. destruct (ending src); simpl; auto.
  - destruct HR as (HD & HE & HRm & HP & _).
    destruct (IH dst1 src' Hd1 ltac:(lia)) as (dst' & -> & Hw' & Hd').
    exists dst'. rewrite HE, HRm, HD, Hw', Hw1, <- app_assoc. auto.
Qed.

(** Every loop returns, whatever the two sides do. *)
Lemma flush_loop_total (fuel : nat) :
  forall (dst : writer) (chunk : bytes) (offset : nat),
    length (responses dst) < fuel ->
    exists res, flush_loop fuel dst chunk offset = Some res.
Proof.
  induction fuel as [|fuel IH]; intros dst chunk offset Hf; [lia|].
  simpl. destruct (Nat.leb_spec (length chunk) offset) as [Hge|Hlt]; [eauto|].
  unfold Write. destruct (responses dst) as [|[k [e|]] rest] eqn:E; simpl in *.
  - rewrite flush_loop_done; [eauto | rewrite length_skipn; lia].
  - eauto.
  - apply IH. simpl. lia.
Qed.

Lemma copyChunk_total (dst : writer) (chunk : bytes) :
  exists res, copyChunk dst chunk = Some res.
Proof.
  unfold copyChunk. destruct (Write chunk dst) as [[n [e|]] dst']; [eauto|].
  destruct (n <? length chunk); [|eauto].
  apply flush_loop_total. lia.
Qed.

Lemma copyData_loop_total (fuel : nat) :
  forall (dst : writer) (src : reader),
    pending src < fuel -> exists res, copyData_loop fuel dst src = Some res.
Proof.
  induction fuel as [|fuel IH]; intros dst src Hf; [lia|].
  simpl. pose proof (Read_spec bufSize32K src bufSize32K_pos) as HR.
  destruct (Read bufSize32K src) as [[chunk readErr] src'].
  assert (exists res,
            (if 0 <? length chunk then copyChunk dst chunk else Some (None, dst))
            = Some res) as ([[e|] dst1] & ->).
  { destruct (0 <? length chunk); [apply copyChunk_total | eauto]. }
  - eauto.
  - destruct readErr as [[]|]; eauto.
    apply IH. destruct HR as (_ & _ & _ & HP & _). lia.
Qed.

Lemma copyData_total (dst : writer) (src : reader) :
  exists res, copyData dst src = Some res.
Proof. apply copyData_loop_total. lia. Qed.

Lemma bufSize4K_pos : (0 < bufSize4K)%Z.
Proof. reflexivity. Qed.

Lemma proxyData_loop_errorFree (fuel : nat) :
  forall (src : reader) (dst : writer),
    errorFree dst -> pending src < fuel ->
    exists dst',
      proxyData_loop fuel src dst = Some (readLog (ending src), remaining src, dst')
      /\ errorFree dst'
      /\ (responses dst = [] ->
          written dst' = written dst ++ delivered src /\ responses dst' = []).
Proof.
  induction fuel as [|fuel IH]; intros src dst Hd Hf; [lia|].
  simpl. pose proof (Read_spec bufSize4K src bufSize4K_pos) as HR.
  destruct (Read bufSize4K src) as [[chunk err] src'].
  assert (exists n dst1,
            (if 0 <? length chunk then Write chunk dst else ((O, None), dst))
            = ((n, None), dst1)
            /\ errorFree dst1
            /\ (responses dst = [] ->
                written dst1 = written dst ++ chunk /\ responses dst1 = []))
    as (n & dst1 & -> & Hd1 & Hacc).
  { destruct (Nat.ltb_spec 0 (length chunk)).
    - destruct (Write_errorFree chunk dst Hd) as (n & dst1 & HW & _ & _ & Hd1 & _).
      exists n, dst1. repeat split; auto;
        rewrite (Write_accepting chunk dst H0) in HW; now inversion HW.
    - exists 0, dst. destruct chunk; [|simpl in *; lia].
      rewrite app_nil_r. auto. }
  destruct err as [e|].
  - destruct HR as (HD & HE & HRm & _). subst e. rewrite HD, HRm.
    exists dst1. destruct (ending src); simpl; auto.
  - destruct HR as (HD & HE & HRm & HP & _).
    destruct (IH src' dst1 Hd1 ltac:(lia)) as (dst' & -> & Hd' & Hacc').
    exists dst'. rewrite HE, HRm, HD. repeat split; auto;
      destruct (Hacc H) as (Hw1 & Hr1); destruct (Hacc' Hr1) as (Hw' & Hr');
      [now rewrite Hw', Hw1, <- app_assoc | assumption].
Qed.


(** ** The header scan *)

Lemma Read1_length (r : reader) : length (fst (fst (Read 1 r))) <= 1.
Proof.
  pose proof (Read_spec 1 r ltac:(lia)) as HR.
  destruct (Read 1 r) as [[tmp [e|]] r']; simpl; unfold len in HR; lia.
Qed.

(** The buffer the scan leaves ends with the first terminator it holds. *)
Lemma readHeader_loop_endsAtFirst (fuel : nat) :
  forall (r : reader) (buf raw : bytes) (r' : reader),
    Contains buf CRLFCRLF = false ->
    readHeader_loop fuel r buf = Some (inr raw, r') ->
    endsAtFirst raw CRLFCRLF.
Proof.
  induction fuel as [|fuel IH]; intros r buf raw r' Hb; simpl; [discriminate|].
  pose proof (Read1_length r) as HL.
  destruct (Read 1 r) as [[tmp [e|]] r1]; simpl in HL; [discriminate|].
  destruct tmp as [|x [|y tmp]]; simpl in *; try lia.
  - rewrite Hb. now apply IH.
  - destruct (Contains (buf ++ [x]) CRLFCRLF) eqn:E.
    + intros [= <- <-]. now apply first_Contains_at_end.
    + now apply IH.
Qed.

Lemma Read1_scanned (r : reader) :
  match Read 1 r with
  | ((tmp, None), r') => scanned r = tmp ++ scanned r'
  | _ => True
  end.
Proof.
  destruct r as [|[bs e] rest]; simpl; [exact I|].
  destruct (Z.leb_spec (len bs) 1) as [Hle|Hgt].
  - destruct e; [exact I | reflexivity].
  - change (Z.to_nat 1) with 1.
    destruct bs as [|b [|b' bs]]; try (unfold len in Hgt; simpl in Hgt; lia).
    destruct e; reflexivity.
Qed.

(** A source that never completes the terminator makes the scan fail. *)
Lemma readHeader_loop_no_terminator (fuel : nat) :
  forall (r : reader) (buf : bytes),
    Contains (buf ++ scanned r) CRLFCRLF = false ->
    pending r < fuel ->
    readHeader_loop fuel r buf =
    Some (inl (ErrorfW "error reading response header: %w" (ending r)), remaining r).
Proof.
  induction fuel as [|fuel IH]; intros r buf Hb Hf; [lia|].
  simpl. pose proof (Read_spec 1 r ltac:(lia)) as HR.
  pose proof (Read1_scanned r) as HS.
  destruct (Read 1 r) as [[tmp [e|]] r1].
  - destruct HR as (_ & -> & -> & _). reflexivity.
  - destruct HR as (_ & HE & HRm & HP & _).
    rewrite HS, app_assoc in Hb.
    assert ((if 0 <? length tmp then buf ++ tmp else buf) = buf ++ tmp) as ->
      by (destruct tmp; [now rewrite app_nil_r | reflexivity]).
    rewrite (not_Contains_prefix _ _ _ Hb), HE, HRm.
    apply IH; [assumption | lia].
Qed.

(** The scan of a clean source whose bytes start with a header block [p]
    stops with exactly [p] in the buffer and the rest of the bytes unread. *)
Lemma readHeader_loop_found (fuel : nat) :
  forall (r : reader) (buf p rest : bytes),
    clean r -> pending r < fuel ->
    Contains buf CRLFCRLF = false ->
    buf ++ delivered r = p ++ rest ->
    endsAtFirst p CRLFCRLF ->
    exists r',
      readHeader_loop fuel r buf = Some (inr p, r')
      /\ clean r' /\ delivered r' = rest.
Proof.
  induction fuel as [|fuel IH]; intros r buf p rest Hc Hf Hb Heq Hp; [lia|].
  simpl. pose proof (Read_spec 1 r ltac:(lia)) as HR.
  pose proof (Read1_length r) as HL.
  destruct (Read_clean 1 r Hc) as (Hc1 & Hnone).
  destruct (Read 1 r) as [[tmp err] r1]; simpl in *.
  destruct r as [|ev r0].
  - exfalso. simpl in Heq. rewrite app_nil_r in Heq. subst buf.
    rewrite (Contains_app _ _ _ (endsAtFirst_Contains _ _ Hp)) in Hb. discriminate.
  - rewrite (Hnone ltac:(discriminate)) in *.
    destruct HR as (HD & _ & _ & HP & _). rewrite HD in Heq.
    destruct tmp as [|x [|y tmp]]; simpl in HL; try lia; simpl.
    + rewrite Hb. apply IH; auto. lia.
    + simpl in Heq.
      destruct (Contains (buf ++ [x]) CRLFCRLF) eqn:E.
      * assert (buf ++ [x] = p) as Hbp.
        { change (x :: delivered r1) with ([x] ++ delivered r1) in Heq.
          rewrite app_assoc in Heq.
          apply app_eq_app in Heq as (l & [(H1 & H2) | (H1 & H2)]).
          - destruct l as [|z l]; [now rewrite app_nil_r in H1|].
            exfalso.
            destruct (exists_last (l := z :: l)) as (l' & w & Hl); [discriminate|].
            rewrite Hl, app_assoc in H1.
            apply app_inj_tail in H1 as (H1 & _). subst buf.
            rewrite (Contains_app _ _ _ (endsAtFirst_Contains _ _ Hp)) in Hb.
            discriminate.
          - destruct l as [|z l]; [now rewrite app_nil_r in H1|].
            exfalso.
            assert (Contains (buf ++ [x]) CRLFCRLF = false)
              by (apply (endsAtFirst_prefix p CRLFCRLF _ (z :: l)); auto; discriminate).
            congruence. }
        exists r1. subst p. repeat split; auto.
        change (x :: delivered r1) with ([x] ++ delivered r1) in Heq.
        rewrite app_assoc in Heq. now apply app_inv_head in Heq.
      * apply IH; auto; [lia|].
        now rewrite <- app_assoc.
Qed.

(** Whatever the scan returns, it has read no further than the first error
    of the source. *)
Lemma readHeader_loop_remaining (fuel : nat) :
  forall (r : reader) (buf : bytes) res (r' : reader),
    readHeader_loop fuel r buf = Some (res, r') ->
    match res with
    | inl _ => r' = remaining r
    | inr _ => remaining r' = remaining r
    end.
Proof.
  induction fuel as [|fuel IH]; intros r buf res r'; simpl; [discriminate|].
  pose proof (Read_spec 1 r ltac:(lia)) as HR.
  destruct (Read 1 r) as [[tmp [e|]] r1].
  - destruct HR as (_ & _ & -> & _). now intros [= <- <-].
  - destruct HR as (_ & _ & -> & _).
    destruct (Contains _ CRLFCRLF).
    + now intros [= <- <-].
    + apply IH.
Qed.

Lemma readHeader_loop_total (fuel : nat) :
  forall (r : reader) (buf : bytes),
    pending r < fuel -> exists res, readHeader_loop fuel r buf = Some res.
Proof.
  induction fuel as [|fuel IH]; intros r buf Hf; [lia|].
  simpl. pose proof (Read_spec 1 r ltac:(lia)) as HR.
  destruct (Read 1 r) as [[tmp [e|]] r1]; [eauto|].
  destruct (Contains _ CRLFCRLF); [eauto|].
  apply IH. destruct HR as (_ & _ & _ & HP & _). lia.
Qed.

(** ** The response relay *)

Lemma readHeader_endsAtFirst (r : reader) (raw : bytes) (r' : reader) :
  readHeader r = Some (inr raw, r') ->
  exists h, raw = h ++ CRLFCRLF /\ SplitN raw CRLFCRLF 2 = [h; []].
Proof.
  intros H. apply readHeader_loop_endsAtFirst in H; [|reflexivity].
  destruct H as (h & -> & Hi). exists h. split; [reflexivity|].
  now apply SplitN_endsAtFirst.
Qed.

(** The relay with a client that reports no write error: it returns, it has
    read the upstream up to its first error and no further, and it has not
    read the client. *)
Lemma proxyResponse_errorFree (upstream client : conn) :
  errorFree (tx client) ->
  exists err client',
    proxyResponseWithHeaderInjection upstream client
    = Some (err, withRx upstream (remaining (rx upstream)), client')
    /\ rx client' = rx client /\ errorFree (tx client').
Proof.
  intros Hc. unfold proxyResponseWithHeaderInjection.
  destruct (readHeader_loop_total (S (pending (rx upstream))) (rx upstream) []
              ltac:(lia)) as ([res urx] & HR).
  pose proof (readHeader_loop_remaining _ _ _ _ _ HR) as Hrem.
  pose proof HR as HR'. unfold readHeader. rewrite HR.
  destruct res as [e|raw].
  - subst urx. eauto.
  - destruct (readHeader_endsAtFirst _ _ _ HR') as (h & -> & ->).
    destruct (Write_errorFree (injectHeader h) (tx client) Hc)
      as (n & ctx & -> & _ & _ & Hctx & _).
    simpl.
    destruct (copyData_loop_errorFree (S (pending urx)) ctx urx Hctx ltac:(lia))
      as (ctx' & HC & _ & Hctx').
    unfold copyData. rewrite HC, Hrem. unfold withRx, withTx. simpl. eauto.
Qed.

Lemma flush_loop_wrapped (fuel : nat) :
  forall (dst : writer) (chunk : bytes) (offset : nat) err dst',
    flush_loop fuel dst chunk offset = Some (err, dst') -> wrapped err.
Proof.
  induction fuel as [|fuel IH]; intros dst chunk offset err dst'; simpl;
    destruct (length chunk <=? offset); try discriminate;
    try (intros [= <- _]; exact I).
  destruct (Write (skipn offset chunk) dst) as [[w [e|]] d1].
  - intros [= <- _]. exact I.
  - apply IH.
Qed.

Lemma copyChunk_wrapped (dst : writer) (chunk : bytes) err dst' :
  copyChunk dst chunk = Some (err, dst') -> wrapped err.
Proof.
  unfold copyChunk. destruct (Write chunk dst) as [[n [e|]] d1].
  - intros [= <- _]. exact I.
  - destruct (n <? length chunk).
    + apply flush_loop_wrapped.
    + intros [= <- _]. exact I.
Qed.

Lemma copyData_loop_wrapped (fuel : nat) :
  forall (dst : writer) (src : reader) err dst' src',
    copyData_loop fuel dst src = Some (err, dst', src') -> wrapped err.
Proof.
  induction fuel as [|fuel IH]; intros dst src err dst' src'; simpl; [discriminate|].
  destruct (Read bufSize32K src) as [[chunk readErr] s1].
  destruct (if 0 <? length chunk then copyChunk dst chunk else Some (None, dst))
    as [[[e|] d1]|] eqn:E; try discriminate.
  - intros [= <- _ _].
    destruct (0 <? length chunk); [|discriminate].
    now apply copyChunk_wrapped in E.
  - destruct readErr as [[]|]; try (intros [= <- _ _]; exact I). apply IH.
Qed.

(** The copy to a writer that accepts every write. *)
Lemma copyChunk_accepting (w chunk : bytes) :
  copyChunk (mkWriter w []) chunk = Some (None, mkWriter (w ++ chunk) []).
Proof.
  unfold copyChunk. rewrite Write_accepting by reflexivity. simpl.
  now rewrite Nat.ltb_irrefl.
Qed.

Lemma copyData_loop_accepting (fuel : nat) :
  forall (w : bytes) (src : reader),
    pending src < fuel ->
    copyData_loop fuel (mkWriter w []) src
    = Some (copyResult (ending src), mkWriter (w ++ delivered src) [], remaining src).
Proof.
  induction fuel as [|fuel IH]; intros w src Hf; [lia|].
  simpl. pose proof (Read_spec bufSize32K src bufSize32K_pos) as HR.
  destruct (Read bufSize32K src) as [[chunk readErr] src'].
  assert ((if 0 <? length chunk then copyChunk (mkWriter w []) chunk
           else Some (None, mkWriter w []))
          = Some (None, mkWriter (w ++ chunk) [])) as ->.
  { destruct chunk; simpl; [now rewrite app_nil_r | apply copyChunk_accepting]. }
  destruct readErr as [e|].
  - destruct HR as (HD & HE & HRm & _). subst e. rewrite HD, HRm.
    now destruct (ending src).
  - destruct HR as (HD & HE & HRm & HP & _).
    rewrite IH by lia. now rewrite HE, HRm, HD, <- app_assoc.
Qed.

(** The relay of a clean upstream whose bytes are a header section [h],
    the terminator (the first one there is) and a body, to a client that
    accepts every write: the client receives [h], the line [Foo: Bar], the
    terminator and the body. *)
Lemma proxyResponse_clean (upstream client : conn) (h body : bytes) :
  clean (rx upstream) ->
  delivered (rx upstream) = (h ++ CRLFCRLF) ++ body ->
  IndexNat (h ++ CRLFCRLF) CRLFCRLF = Some (length h) ->
  responses (tx client) = [] ->
  proxyResponseWithHeaderInjection upstream client
  = Some (None, withRx upstream [],
          withTx client
            (mkWriter (written (tx client)
                       ++ (h ++ CRLF ++ B "Foo: Bar" ++ CRLFCRLF) ++ body) [])).
Proof.
  intros Hc Hd Hi Ha. rewrite <- injectHeader_appends.
  unfold proxyResponseWithHeaderInjection, readHeader.
  destruct (readHeader_loop_found (S (pending (rx upstream))) (rx upstream) []
              (h ++ CRLFCRLF) body Hc ltac:(lia) eq_refl Hd)
    as (r' & -> & Hc' & Hd').
  { exists h. now split. }
  rewrite (SplitN_endsAtFirst _ _ Hi), (Write_accepting _ _ Ha). simpl.
  unfold copyData. rewrite copyData_loop_accepting by lia.
  rewrite (clean_ending _ Hc'), (clean_remaining _ Hc'), Hd', <- app_assoc.
  reflexivity.
Qed.

Lemma readHeader_loop_wrapped (fuel : nat) :
  forall (r : reader) (buf : bytes) e r',
    readHeader_loop fuel r buf = Some (inl e, r') -> wrapped (Some e).
Proof.
  induction fuel as [|fuel IH]; intros r buf e r'; simpl; [discriminate|].
  destruct (Read 1 r) as [[tmp [e0|]] r1].
  - now intros [= <- _].
  - destruct (Contains _ CRLFCRLF); [discriminate | apply IH].
Qed.

(** The relay returns, and never with an error that is not a wrapped one. *)
Lemma proxyResponse_total (upstream client : conn) :
  exists err upstream' client',
    proxyResponseWithHeaderInjection upstream client = Some (err, upstream', client')
    /\ wrapped err.
Proof.
  unfold proxyResponseWithHeaderInjection.
  destruct (readHeader_loop_total (S (pending (rx upstream))) (rx upstream) []
              ltac:(lia)) as ([res urx] & HR).
  pose proof HR as HR'. unfold readHeader. rewrite HR.
  destruct res as [e|raw].
  - exists (Some e), (withRx upstream urx), client. split; [reflexivity|].
    now apply readHeader_loop_wrapped in HR.
  - destruct (readHeader_endsAtFirst _ _ _ HR') as (h & -> & ->).
    destruct (Write (injectHeader h) (tx client)) as [[n [e|]] ctx].
    + do 3 eexists. split; [reflexivity | exact I].
    + simpl. destruct (copyData_total ctx urx) as ([[err d'] s'] & HC).
      rewrite HC. do 3 eexists. split; [reflexivity|].
      unfold copyData in HC. now apply copyData_loop_wrapped in HC.
Qed.

(** ** The request metadata *)

Lemma Index_lower_bound (s sep : bytes) : (-1 <= Index s sep)%Z.
Proof. unfold Index. destruct (IndexNat s sep); lia. Qed.

(** The slice that takes the version is always within bounds. *)
Lemma version_slice_returns (request : bytes) :
  let idx := Index request (B "HTTP/") in
  exists version,
    (if negb (idx =? -1)%Z && (len request >? idx + 8)%Z
     then slice request (idx + 5) (idx + 8)
     else Returns []) = Returns version.
Proof.
  intros idx. pose proof (Index_lower_bound request (B "HTTP/")) as Hlb.
  fold idx in Hlb.
  destruct (negb (idx =? -1)%Z && (len request >? idx + 8)%Z) eqn:E; [|eauto].
  apply andb_true_iff in E as (E1 & E2).
  apply negb_true_iff, Z.eqb_neq in E1. apply Z.gtb_lt in E2.
  unfold slice.
  assert (((0 <=? idx + 5) && (idx + 5 <=? idx + 8) && (idx + 8 <=? len request))%Z
          = true) as ->; [|eauto].
  rewrite !andb_true_iff, !Z.leb_le. lia.
Qed.

(** The first line that starts with [Connection:] decides the result: twelve
    bytes are dropped from it, the colon's successor among them. *)
Lemma scanConnection_first (before after : list bytes) (c : ascii) (value : bytes) :
  Forall notConnectionLine before ->
  scanConnection (before ++ (B "Connection:" ++ c :: value) :: after)
  = Returns (TrimSpace value).
Proof.
  induction 1 as [|line before Hl _ IH]; simpl.
  - unfold sliceFrom, slice, len. simpl length.
    assert (((0 <=? 12) && (12 <=? Z.of_nat (12 + length value))
             && (Z.of_nat (12 + length value) <=? Z.of_nat (12 + length value)))%Z
            = true) as Hb by (rewrite !andb_true_iff, !Z.leb_le; lia).
    change (Z.of_nat (S (S (S (S (S (S (S (S (S (S (S (S (length value))))))))))))))
      with (Z.of_nat (12 + length value)).
    change (Z.of_nat 12) with 12%Z. rewrite Hb.
    replace (Z.to_nat (Z.of_nat (12 + length value) - 12)) with (length value) by lia.
    change (Z.to_nat 12) with 12. simpl skipn. now rewrite firstn_all.
  - unfold notConnectionLine in Hl. simpl in Hl. rewrite Hl. exact IH.
Qed.

(** ** One cycle of a session *)

Lemma proxyData_upstream_to_client (upstream client : conn) :
  errorFree (tx client) ->
  exists client',
    proxyData upstream client "UPSTREAM -> CLIENT"
    = Some ([], withRx upstream (remaining (rx upstream)), client')
    /\ rx client' = rx client /\ errorFree (tx client').
Proof.
  intros Hc. unfold proxyData. simpl String.eqb. cbv iota.
  destruct (proxyResponse_errorFree upstream client Hc) as (err & c' & -> & H1 & H2).
  eauto.
Qed.

Lemma proxyData_client_to_upstream (client upstream : conn) :
  errorFree (tx upstream) ->
  exists utx,
    proxyData client upstream "CLIENT -> UPSTREAM"
    = Some (readLog (ending (rx client)), withRx client (remaining (rx client)),
            withTx upstream utx)
    /\ errorFree utx.
Proof.
  intros Hu. unfold proxyData. simpl String.eqb. cbv iota.
  destruct (proxyData_loop_errorFree (S (pending (rx client))) (rx client)
              (tx upstream) Hu ltac:(lia)) as (d' & -> & Hd' & _).
  eauto.
Qed.

Lemma session_loop_unfold (fuel : nat) (clientConn upstreamConn : conn) :
  session_loop (S fuel) clientConn upstreamConn =
  let '((request, err), crx) := Read bufSize4K (rx clientConn) in
  let clientConn := withRx clientConn crx in
  match err with
  | Some io_EOF => Some ([], clientConn, upstreamConn)
  | Some e => Some ([Printf "Error reading from client: %v" e], clientConn, upstreamConn)
  | None =>
      if length request =? 0 then Some ([], clientConn, upstreamConn)
      else
        match parseHTTPHeaders request with
        | Panics e => Some ([Panicked e], clientConn, upstreamConn)
        | Returns (version, connectionHeader) =>
            let '((_, werr), utx) := Write request (tx upstreamConn) in
            let upstreamConn := withTx upstreamConn utx in
            match werr with
            | Some e =>
                Some ([Printf "Error writing to upstream: %v" e], clientConn, upstreamConn)
            | None =>
                match proxyData upstreamConn clientConn "UPSTREAM -> CLIENT" with
                | None => None
                | Some (log1, upstreamConn, clientConn) =>
                    match proxyData clientConn upstreamConn "CLIENT -> UPSTREAM" with
                    | None => None
                    | Some (log2, clientConn, upstreamConn) =>
                        if shouldKeepAlive version connectionHeader then
                          match session_loop fuel clientConn upstreamConn with
                          | None => None
                          | Some (log, c, u) =>
                              Some (log1 ++ log2
                                    ++ Println "Connection kept alive for next request." :: log,
                                    c, u)
                          end
                        else
                          Some (log1 ++ log2
                                ++ [Println "Connection closing (not keep-alive)."],
                                clientConn, upstreamConn)
                    end
                end
            end
        end
  end.
Proof. reflexivity. Qed.

(** A cycle whose request is read in one piece, between two sides that
    report no write error: both relays run to the first error of the side
    they read, and the decision follows. *)
Lemma session_loop_cycle (fuel : nat) (request : bytes) (crest : reader)
  (cw : writer) (upstreamConn : conn) (version connectionHeader : bytes) :
  0 < length request -> (len request <= bufSize4K)%Z ->
  parseHTTPHeaders request = Returns (version, connectionHeader) ->
  errorFree cw -> errorFree (tx upstreamConn) ->
  exists cw' uw',
    errorFree cw' /\ errorFree uw' /\
    session_loop (S fuel) (mkConn ((request, None) :: crest) cw) upstreamConn =
    if shouldKeepAlive version connectionHeader then
      match session_loop fuel (mkConn (remaining crest) cw')
              (mkConn (remaining (rx upstreamConn)) uw') with
      | None => None
      | Some (log, c, u) =>
          Some (readLog (ending crest)
                ++ Println "Connection kept alive for next request." :: log, c, u)
      end
    else
      Some (readLog (ending crest) ++ [Println "Connection closing (not keep-alive)."],
            mkConn (remaining crest) cw', mkConn (remaining (rx upstreamConn)) uw').
Proof.
  intros Hpos Hlen Hparse Hcw Huw.
  rewrite session_loop_unfold. cbn [rx Read].
  apply Z.leb_le in Hlen. rewrite Hlen.
  destruct (Nat.eqb_spec (length request) 0) as [|_]; [lia|].
  rewrite Hparse.
  destruct (Write_errorFree request (tx upstreamConn) Huw)
    as (n & utx & -> & _ & _ & Hutx & _).
  destruct (proxyData_upstream_to_client (withTx upstreamConn utx)
              (withRx (mkConn ((request, None) :: crest) cw) crest) Hcw)
    as (c1 & -> & Hrx1 & Htx1).
  destruct (proxyData_client_to_upstream c1
              (withRx (withTx upstreamConn utx) (remaining (rx (withTx upstreamConn utx))))
              Hutx) as (utx2 & -> & Hutx2).
  exists (tx c1), utx2. split; [assumption|]. split; [assumption|].
  rewrite Hrx1. unfold withRx, withTx. simpl. reflexivity.
Qed.

Lemma shouldKeepAlive_11 (connHeader : bytes) :
  shouldKeepAlive (B "1.1") connHeader
  = negb (bytes_eqb (ToLower (TrimSpace connHeader)) (B "close")).
Proof.
  unfold shouldKeepAlive. change (TrimSpace (B "1.1")) with (B "1.1").
  change (bytes_eqb (B "1.1") (B "1.0")) with false.
  change (bytes_eqb (B "1.1") (B "1.1")) with true.
  simpl. now destruct (bytes_eqb _ _).
Qed.

(** ** The two relays of a cycle touch different halves *)

(** The response relay reads only [rx upstream] and writes only
    [tx client]. *)
Lemma proxyResponse_halves (upstream client : conn) :
  proxyResponseWithHeaderInjection upstream client =
  match proxyResponseWithHeaderInjection
          (mkConn (rx upstream) (mkWriter [] [])) (mkConn [] (tx client)) with
  | Some (err, u, c) => Some (err, withRx upstream (rx u), withTx client (tx c))
  | None => None
  end.
Proof.
  unfold proxyResponseWithHeaderInjection. cbn [rx tx].
  destruct (readHeader (rx upstream)) as [[[e|raw] urx]|]; [| |reflexivity].
  - destruct client; reflexivity.
  - destruct (SplitN raw CRLFCRLF 2) as [|headerSection [|leftover parts]];
      try (destruct client; reflexivity).
    unfold withRx, withTx. cbn [rx tx].
    destruct (Write (injectHeader headerSection) (tx client)) as [[n [e|]] ctx];
      [reflexivity|].
    destruct (if 0 <? length leftover then Write leftover ctx else (0, None, ctx))
      as [[n' [e|]] ctx']; [reflexivity|].
    destruct (copyData ctx' urx) as [[[err d] r]|]; reflexivity.
Qed.

Lemma proxyData_frame (upstream client : conn) log upstream' client' :
  proxyData upstream client "UPSTREAM -> CLIENT" = Some (log, upstream', client') ->
  log = [] /\ tx upstream' = tx upstream /\ rx client' = rx client.
Proof.
  unfold proxyData. simpl String.eqb. cbv iota.
  rewrite proxyResponse_halves.
  destruct (proxyResponseWithHeaderInjection _ _) as [[[err u] c]|]; [|discriminate].
  intros [= <- <- <-]. auto.
Qed.

(** X8.  The two relays of a cycle are independent: running the response
    relay and then the passthrough, or the passthrough and then the
    response relay, leaves the same log and the same two connections,
    whatever the connections do.  Neither relay reads what the other reads
    or writes where the other writes. *)
Lemma relays_commute (upstream client : conn) :
  match proxyData upstream client "UPSTREAM -> CLIENT" with
  | Some (log1, u1, c1) =>
      match proxyData c1 u1 "CLIENT -> UPSTREAM" with
      | Some (log2, c2, u2) => Some (log1 ++ log2, c2, u2)
      | None => None
      end
  | None => None
  end
  =
  match proxyData client upstream "CLIENT -> UPSTREAM" with
  | Some (log2, c1, u1) =>
      match proxyData u1 c1 "UPSTREAM -> CLIENT" with
      | Some (log1, u2, c2) => Some (log1 ++ log2, c2, u2)
      | None => None
      end
  | None => None
  end.
Proof.
  unfold proxyData. simpl String.eqb. cbv iota.
  rewrite (proxyResponse_halves upstream client).
  destruct (proxyData_loop (S (pending (rx client))) (rx client) (tx upstream))
    as [[[log2 crx] utx]|] eqn:E2.
  - rewrite (proxyResponse_halves (withTx upstream utx) (withRx client crx)).
    unfold withRx, withTx. cbn [rx tx].
    destruct (proxyResponseWithHeaderInjection _ _) as [[[err u] c]|].
    + cbn [rx tx]. rewrite E2. reflexivity.
    + reflexivity.
  - unfold withRx, withTx.
    destruct (proxyResponseWithHeaderInjection _ _) as [[[err u] c]|].
    + cbn [rx tx]. rewrite E2. reflexivity.
    + reflexivity.
Qed.

(** ** Every session returns *)




(** ** Trimming a version that was cut from a request *)

Lemma trimFront_suffix (sp2 : ascii -> ascii -> bool)
  (sp3 : ascii -> ascii -> ascii -> bool) (n : nat) :
  forall s : bytes, length s <= n -> exists p, s = p ++ trimFront sp2 sp3 s.
Proof.
  induction n as [|n IH]; intros s Hn.
  - destruct s; [now exists [] | simpl in Hn; lia].
  - destruct s as [|c1 t1]; [now exists []|]. simpl in Hn. simpl.
    destruct (asciiSpace c1).
    { destruct (IH t1 ltac:(lia)) as (p & Hp). exists (c1 :: p). simpl. now f_equal. }
    destruct t1 as [|c2 t2]; [now exists []|]. simpl in Hn.
    destruct (sp2 c1 c2).
    { destruct (IH t2 ltac:(lia)) as (p & Hp). exists (c1 :: c2 :: p). simpl.
      now do 2 f_equal. }
    destruct t2 as [|c3 t3]; [now exists []|]. simpl in Hn.
    destruct (sp3 c1 c2 c3); [|now exists []].
    destruct (IH t3 ltac:(lia)) as (p & Hp). exists (c1 :: c2 :: c3 :: p). simpl.
    now do 3 f_equal.
Qed.

(** [TrimSpace] keeps a stretch of the string. *)
Lemma TrimSpace_infix (s : bytes) : exists p q, s = p ++ TrimSpace s ++ q.
Proof.
  unfold TrimSpace, TrimRightSpace, TrimLeftSpace.
  destruct (trimFront_suffix space2 space3 (length s) s (le_n _)) as (p & Hp).
  set (l := trimFront space2 space3 s) in *.
  destruct (trimFront_suffix (fun c2 c1 => space2 c1 c2)
              (fun c3 c2 c1 => space3 c1 c2 c3) (length (rev l)) (rev l) (le_n _))
    as (q & Hq).
  exists p, (rev q). rewrite <- rev_app_distr, <- Hq, rev_involutive. exact Hp.
Qed.

Lemma TrimSpace_same_length (s : bytes) :
  length (TrimSpace s) = length s -> TrimSpace s = s.
Proof.
  intros H. destruct (TrimSpace_infix s) as (p & q & Hs).
  assert (length s = length p + (length (TrimSpace s) + length q)) as Hl
    by (rewrite Hs at 1; now rewrite !length_app).
  destruct p; [|simpl in Hl; lia]. destruct q; [|simpl in Hl; lia].
  simpl in Hs. now rewrite app_nil_r in Hs.
Qed.

(** On a version of three bytes, or none, trimming does not change the
    comparison with a version of three bytes without white space. *)
Lemma TrimSpace_version_eqb (version literal : bytes) :
  version = [] \/ length version = 3 ->
  length literal = 3 -> TrimSpace literal = literal ->
  bytes_eqb (TrimSpace version) literal = bytes_eqb version literal.
Proof.
  intros Hv Hl Ht. apply eq_true_iff_eq. rewrite !bytes_eqb_eq. split.
  - intros H. destruct Hv as [->|Hv].
    + exact H.
    + rewrite <- H. symmetry. apply TrimSpace_same_length. rewrite H. lia.
  - intros ->. exact Ht.
Qed.

Lemma slice_length (s : bytes) (lo hi : Z) (v : bytes) :
  slice s lo hi = Returns v -> len v = (hi - lo)%Z.
Proof.
  unfold slice. destruct ((0 <=? lo)%Z && (lo <=? hi)%Z && (hi <=? len s)%Z) eqn:E;
    [|discriminate].
  intros [= <-]. apply andb_true_iff in E as (E & E3).
  apply andb_true_iff in E as (E1 & E2).
  apply Z.leb_le in E1, E2, E3. unfold len in *.
  rewrite length_firstn, length_skipn. lia.
Qed.

(** The version that [parseHTTPHeaders] returns has three bytes, or none. *)
Lemma parseHTTPHeaders_version (request version connection : bytes) :
  parseHTTPHeaders request = Returns (version, connection) ->
  version = [] \/ length version = 3.
Proof.
  unfold parseHTTPHeaders.
  destruct (negb (Index request (B "HTTP/") =? -1)%Z
            && (len request >? Index request (B "HTTP/") + 8)%Z).
  - destruct (slice request _ _) as [v|] eqn:E; [|discriminate].
    destruct (scanConnection _); [|discriminate].
    intros [= <- _]. right. apply slice_length in E. unfold len in E. lia.
  - destruct (scanConnection _); [|discriminate].
    intros [= <- _]. now left.
Qed.

(** * The claims *)

(** C1, as amended.  [shouldKeepAlive] follows the decision table with the
    version trimmed of white space before it is compared: for a version that
    trims to "1.0" it continues iff the Connection value, trimmed and
    compared without regard to case, is "keep-alive"; for one that trims to
    "1.1" it terminates iff that value is "close"; for every other version
    it terminates.  On a pair that [parseHTTPHeaders] has returned the
    trimming of the version changes nothing, and the table holds as it is
    written. *)
Theorem shouldKeepAlive_table_trimmed_version :
  (forall version connHeader : bytes,
      decisionOf (shouldKeepAlive version connHeader)
      = KeepAliveDecider_table (TrimSpace version) connHeader)
  /\ (forall request version connHeader : bytes,
         parseHTTPHeaders request = Returns (version, connHeader) ->
         decisionOf (shouldKeepAlive version connHeader)
         = KeepAliveDecider_table version connHeader).
Proof.
  assert (forall version connHeader : bytes,
             decisionOf (shouldKeepAlive version connHeader)
             = KeepAliveDecider_table (TrimSpace version) connHeader) as Htable.
  { intros version connHeader.
    unfold shouldKeepAlive, KeepAliveDecider_table, equalFold.
    change (ToLower (B "keep-alive")) with (B "keep-alive").
    change (ToLower (B "close")) with (B "close").
    destruct (bytes_eqb (TrimSpace version) (B "1.0")) eqn:E0.
    - apply bytes_eqb_eq in E0. rewrite E0.
      change (bytes_eqb (B "1.0") (B "1.1")) with false.
      now destruct (bytes_eqb _ (B "keep-alive")).
    - cbn [andb].
      destruct (bytes_eqb (TrimSpace version) (B "1.1"));
        destruct (bytes_eqb _ (B "close")); reflexivity. }
  split; [exact Htable|].
  intros request version connHeader Hparse. rewrite Htable.
  apply parseHTTPHeaders_version in Hparse.
  unfold KeepAliveDecider_table.
  now rewrite !(TrimSpace_version_eqb version) by (assumption || reflexivity).
Qed.

(** C2.  An upstream whose bytes are the header block
    [A: 1\r\nB: 2\r\n\r\n] followed by a body, delivered in any segments and
    ended by a clean end-of-stream, is relayed to a client that accepts
    its writes as [A: 1\r\nB: 2\r\nFoo: Bar\r\n\r\n] followed by the body,
    byte for byte; the relay returns no error and has read all of the
    upstream. *)
Theorem header_injection_example (upstream client : conn) (body : bytes) :
  clean (rx upstream) ->
  delivered (rx upstream)
  = (B "A: 1" ++ CRLF ++ B "B: 2" ++ CRLF ++ CRLF) ++ body ->
  responses (tx client) = [] ->
  exists client',
    proxyResponseWithHeaderInjection upstream client
    = Some (None, withRx upstream [], client')
    /\ rx client' = rx client
    /\ written (tx client')
       = written (tx client)
         ++ (B "A: 1" ++ CRLF ++ B "B: 2" ++ CRLF ++ B "Foo: Bar" ++ CRLF ++ CRLF)
         ++ body.
Proof.
  intros Hc Hd Ha.
  rewrite (proxyResponse_clean upstream client (B "A: 1" ++ CRLF ++ B "B: 2") body
             Hc Hd eq_refl Ha).
  eexists. split; [reflexivity|]. split; reflexivity.
Qed.

Lemma header_injection_example_witness :
  exists client',
    proxyResponseWithHeaderInjection
      (mkConn [(B "A: 1" ++ [CR], None); ([LF] ++ B "B: 2" ++ CRLF ++ CRLF ++ B "BO", None);
               ([], None); (B "DY", None)] (mkWriter [] []))
      (mkConn [] (mkWriter [] []))
    = Some (None, mkConn [] (mkWriter [] []), client')
    /\ rx client' = []
    /\ written (tx client')
       = (B "A: 1" ++ CRLF ++ B "B: 2" ++ CRLF ++ B "Foo: Bar" ++ CRLF ++ CRLF)
         ++ B "BODY".
Proof.
  apply (header_injection_example
           (mkConn [(B "A: 1" ++ [CR], None);
                    ([LF] ++ B "B: 2" ++ CRLF ++ CRLF ++ B "BO", None);
                    ([], None); (B "DY", None)] (mkWriter [] []))
           (mkConn [] (mkWriter [] [])) (B "BODY")).
  - repeat constructor.
  - reflexivity.
  - reflexivity.
Defined.

(** C4.  When the upstream reports end-of-stream or an error before the
    bytes accumulated by the header scan have held CR LF CR LF, the relay
    returns the read error, wrapped, and the client connection is as it
    was: not one byte has been written to it. *)
Theorem missing_terminator_writes_nothing (upstream client : conn) :
  Contains (scanned (rx upstream)) CRLFCRLF = false ->
  proxyResponseWithHeaderInjection upstream client
  = Some (Some (ErrorfW "error reading response header: %w" (ending (rx upstream))),
          withRx upstream (remaining (rx upstream)), client).
Proof.
  intros H. unfold proxyResponseWithHeaderInjection, readHeader.
  rewrite readHeader_loop_no_terminator; [reflexivity | exact H | lia].
Qed.

Lemma missing_terminator_writes_nothing_witness :
  proxyResponseWithHeaderInjection
    (mkConn [(B "HTTP/1.1 200 OK" ++ CRLF, None); (B "Server: x" ++ CRLF, None)]
            (mkWriter [] []))
    (mkConn [] (mkWriter (B "earlier") []))
  = Some (Some (ErrorfW "error reading response header: %w" io_EOF),
          mkConn [] (mkWriter [] []), mkConn [] (mkWriter (B "earlier") [])).
Proof.
  apply (missing_terminator_writes_nothing
           (mkConn [(B "HTTP/1.1 200 OK" ++ CRLF, None); (B "Server: x" ++ CRLF, None)]
                   (mkWriter [] []))
           (mkConn [] (mkWriter (B "earlier") []))).
  reflexivity.
Defined.

(** C5.  [copyData] from any source, whatever the segments its bytes arrive
    in, to a destination that reports no write error: the destination has
    received the bytes of the source up to its first error, in order and
    nothing else; the copy returns [nil] exactly when that error is
    [io.EOF]; and for a source without error reports these bytes are all
    its segments, end to end. *)
Theorem copyData_roundtrip (dst : writer) (src : reader) :
  errorFree dst ->
  exists dst',
    copyData dst src = Some (copyResult (ending src), dst', remaining src)
    /\ written dst' = written dst ++ delivered src
    /\ (copyResult (ending src) = None <-> ending src = io_EOF)
    /\ (clean src ->
        delivered src = concat (map fst src) /\ ending src = io_EOF).
Proof.
  intros Hd.
  destruct (copyData_loop_errorFree (S (pending src)) dst src Hd ltac:(lia))
    as (dst' & HC & Hw & _).
  exists dst'. repeat split; auto.
  - clear. destruct (ending src); simpl; intros H; try reflexivity; discriminate H.
  - now intros ->.
  - clear - H. induction H as [|[bs e] r He _ IH]; simpl; [reflexivity|].
    simpl in He. subst e. now rewrite IH.
  - now apply clean_ending.
Qed.

Lemma copyData_roundtrip_witness :
  exists dst',
    copyData (mkWriter [] [(1, None); (0, None)])
             [(B "a", None); (B "b", None); (B "cde", None)]
    = Some (None, dst', [])
    /\ written dst' = B "abcde"
    /\ (@None error = None <-> io_EOF = io_EOF)
    /\ (clean [(B "a", None); (B "b", None); (B "cde", None)] ->
        B "abcde" = B "abcde" /\ io_EOF = io_EOF).
Proof.
  apply (copyData_roundtrip (mkWriter [] [(1, None); (0, None)])
           [(B "a", None); (B "b", None); (B "cde", None)]).
  repeat constructor.
Defined.

(** C6, at the failing input.  The destination accepts two of four bytes
    and reports no error.  The client-to-upstream loop of [proxyData] does
    not look at the count: the other two bytes are lost.  [copyData] on the
    same input writes them again. *)
Theorem proxyData_short_write_loses_bytes :
  proxyData (mkConn [(B "abcd", None)] (mkWriter [] []))
            (mkConn [] (mkWriter [] [(2, None)])) "CLIENT -> UPSTREAM"
  = Some ([], mkConn [] (mkWriter [] []), mkConn [] (mkWriter (B "ab") []))
  /\ copyData (mkWriter [] [(2, None)]) [(B "abcd", None)]
     = Some (None, mkWriter (B "abcd") [], []).
Proof. split; vm_compute; reflexivity. Qed.

(** C8, at the failing input.  A line that is exactly [Connection:] has
    eleven bytes; the slice from byte twelve panics. *)
Theorem parseHTTPHeaders_bare_Connection_panics :
  parseHTTPHeaders (B "GET / HTTP/1.1" ++ CRLF ++ B "Connection:" ++ CRLF ++ CRLF)
  = Panics (SliceBoundsOutOfRange 12 11).
Proof. vm_compute. reflexivity. Qed.

(** C9.  The header scan reads at most one byte per round, so the buffer it
    leaves ends with the first terminator it holds: one cut gives the
    header section and an empty leftover.  The relay always returns, and
    never the error "malformed HTTP response headers". *)
Theorem header_scan_ends_at_terminator (upstream client : conn) :
  (forall raw urx,
      readHeader (rx upstream) = Some (inr raw, urx) ->
      exists headerSection,
        raw = headerSection ++ CRLFCRLF
        /\ SplitN raw CRLFCRLF 2 = [headerSection; []])
  /\ (exists err upstream' client',
         proxyResponseWithHeaderInjection upstream client
         = Some (err, upstream', client')
         /\ err <> Some (Errorf "malformed HTTP response headers")).
Proof.
  split.
  - intros raw urx. apply readHeader_endsAtFirst.
  - destruct (proxyResponse_total upstream client) as (err & u' & c' & H & Hw).
    exists err, u', c'. split; [exact H|].
    intros ->. exact Hw.
Qed.

Lemma header_scan_ends_at_terminator_witness :
  exists headerSection,
    B "HTTP/1.1 200 OK" ++ CRLFCRLF = headerSection ++ CRLFCRLF
    /\ SplitN (B "HTTP/1.1 200 OK" ++ CRLFCRLF) CRLFCRLF 2 = [headerSection; []].
Proof.
  apply (proj1 (header_scan_ends_at_terminator
                  (mkConn [(B "HTTP/1.1 200 OK" ++ CRLFCRLF ++ B "hello", None)]
                          (mkWriter [] []))
                  (mkConn [] (mkWriter [] [])))
           (B "HTTP/1.1 200 OK" ++ CRLFCRLF) [(B "hello", None)]).
  reflexivity.
Defined.

(** C10, as amended.  In a chunk whose first line starting with
    [Connection:] goes on with a byte [c] and the bytes [value], the
    Connection value returned is [value], trimmed: the byte after the colon
    is dropped whatever it is.  So for [Connection:close] in an HTTP/1.1
    request the value is [lose], and the connection is kept alive. *)
Theorem parseHTTPHeaders_drops_first_value_byte
  (request : bytes) (before after : list bytes) (c : ascii) (value : bytes) :
  Split request CRLF = before ++ (B "Connection:" ++ c :: value) :: after ->
  Forall notConnectionLine before ->
  exists version,
    parseHTTPHeaders request = Returns (version, TrimSpace value)
    /\ (version = B "1.1" -> c :: value = B "close" ->
        TrimSpace value = B "lose"
        /\ shouldKeepAlive version (TrimSpace value) = true).
Proof.
  intros Hs Hb. destruct (version_slice_returns request) as (version & Hv).
  cbv zeta in Hv. exists version. unfold parseHTTPHeaders.
  rewrite Hv, Hs, (scanConnection_first before after c value Hb).
  split; [reflexivity|].
  intros -> [= -> ->]. split; reflexivity.
Qed.

(** * Further properties of the code *)

(** ** [parseHTTPHeaders] *)

Lemma Connection_line_length (t : bytes) :
  length (B "Connection:" ++ t) = 11 + length t.
Proof. reflexivity. Qed.

(** The scan of the lines panics exactly when the first line that starts
    with [Connection:] holds nothing else. *)
Lemma scanConnection_panics (lines : list bytes) (e : runtimeError) :
  scanConnection lines = Panics e <->
  e = SliceBoundsOutOfRange 12 11
  /\ exists before after,
      lines = before ++ B "Connection:" :: after
      /\ Forall notConnectionLine before.
Proof.
  split.
  - induction lines as [|line rest IH]; [discriminate|].
    cbn [scanConnection].
    destruct (HasPrefix line (B "Connection:")) eqn:E.
    + apply HasPrefix_iff in E as (t & ->).
      destruct t as [|c value].
      * intros [= <-]. split; [reflexivity|].
        exists [], rest. split; [reflexivity | constructor].
      * pose proof (scanConnection_first [] rest c value (Forall_nil _)) as H.
        cbn [app scanConnection] in H.
        assert (HasPrefix (B "Connection:" ++ c :: value) (B "Connection:") = true)
          as Hp by (apply HasPrefix_iff; now exists (c :: value)).
        rewrite Hp in H.
        destruct (sliceFrom _ _); [discriminate | discriminate H].
    + intros H. destruct (IH H) as (-> & before & after & -> & Hb).
      split; [reflexivity|].
      exists (line :: before), after. split; [reflexivity|].
      constructor; assumption.
  - intros (-> & before & after & -> & Hb).
    induction Hb as [|line before Hl _ IH]; [reflexivity|].
    cbn [app scanConnection]. unfold notConnectionLine in Hl. now rewrite Hl.
Qed.

(** X1.  [parseHTTPHeaders] panics exactly on the chunks whose first line
    starting with [Connection:] is that word alone, and the panic is always
    the slice [line[12:]] of an eleven-byte line; on every other chunk it
    returns a pair. *)
Theorem parseHTTPHeaders_panics_iff (request : bytes) (e : runtimeError) :
  parseHTTPHeaders request = Panics e <->
  e = SliceBoundsOutOfRange 12 11
  /\ exists before after,
      Split request CRLF = before ++ B "Connection:" :: after
      /\ Forall notConnectionLine before.
Proof.
  rewrite <- scanConnection_panics. unfold parseHTTPHeaders.
  destruct (version_slice_returns request) as (version & Hv).
  cbv zeta in Hv. rewrite Hv.
  destruct (scanConnection (Split request CRLF)); split; congruence.
Qed.

Lemma parseHTTPHeaders_panics_iff_witness :
  parseHTTPHeaders
    (B "POST /x HTTP/1.0" ++ CRLF ++ B "Host: a" ++ CRLF ++ B "Connection:" ++ CRLF
     ++ B "Connection: close" ++ CRLF ++ CRLF)
  = Panics (SliceBoundsOutOfRange 12 11).
Proof.
  apply (proj2 (parseHTTPHeaders_panics_iff
                  (B "POST /x HTTP/1.0" ++ CRLF ++ B "Host: a" ++ CRLF
                   ++ B "Connection:" ++ CRLF ++ B "Connection: close" ++ CRLF ++ CRLF)
                  (SliceBoundsOutOfRange 12 11))).
  split; [reflexivity|].
  exists [B "POST /x HTTP/1.0"; B "Host: a"], [B "Connection: close"; []; []].
  split; [reflexivity | repeat constructor].
Defined.

Lemma scanConnection_absent (lines : list bytes) :
  Forall notConnectionLine lines -> scanConnection lines = Returns [].
Proof.
  induction 1 as [|line lines Hl _ IH]; [reflexivity|].
  cbn [scanConnection]. unfold notConnectionLine in Hl. now rewrite Hl.
Qed.

(** X2.  The header name is matched byte for byte: in a chunk none of whose
    lines starts with exactly [Connection:] (a lower-case [connection:], or
    a space before the name, does not count) the Connection value is empty,
    so with version 1.1 the connection is kept alive whatever such a line
    asks for. *)
Theorem parseHTTPHeaders_no_Connection_line (request : bytes) :
  Forall notConnectionLine (Split request CRLF) ->
  exists version,
    parseHTTPHeaders request = Returns (version, [])
    /\ (version = B "1.1" -> shouldKeepAlive version [] = true).
Proof.
  intros H. destruct (version_slice_returns request) as (version & Hv).
  cbv zeta in Hv. exists version. unfold parseHTTPHeaders.
  rewrite Hv, (scanConnection_absent _ H). split; [reflexivity|].
  now intros ->.
Qed.

Lemma Index_IndexNat (s sep : bytes) (i : nat) :
  IndexNat s sep = Some i -> Index s sep = Z.of_nat i.
Proof. unfold Index. now intros ->. Qed.

(** X3.  The version is the three bytes after the first [HTTP/] of the
    chunk only when at least one more byte follows them: a chunk that ends
    with the version, or sooner, has the empty version, and the session
    does not keep the connection alive. *)
Theorem parseHTTPHeaders_version_needs_a_byte_after
  (request version connection : bytes) (i : nat) :
  parseHTTPHeaders request = Returns (version, connection) ->
  IndexNat request (B "HTTP/") = Some i ->
  (i + 8 < length request -> version = firstn 3 (skipn (i + 5) request))
  /\ (length request <= i + 8 ->
      version = [] /\ shouldKeepAlive version connection = false).
Proof.
  intros Hp Hi. unfold parseHTTPHeaders in Hp.
  rewrite (Index_IndexNat _ _ _ Hi) in Hp. unfold len in Hp.
  split; intros Hl.
  - assert ((negb (Z.of_nat i =? -1)%Z
             && (Z.of_nat (length request) >? Z.of_nat i + 8)%Z) = true) as Hc.
    { apply andb_true_iff. split.
      - apply negb_true_iff, Z.eqb_neq. lia.
      - apply Z.gtb_lt. lia. }
    rewrite Hc in Hp. unfold slice, len in Hp.
    assert (((0 <=? Z.of_nat i + 5) && (Z.of_nat i + 5 <=? Z.of_nat i + 8)
             && (Z.of_nat i + 8 <=? Z.of_nat (length request)))%Z = true) as Hb
      by (rewrite !andb_true_iff, !Z.leb_le; lia).
    rewrite Hb in Hp.
    replace (Z.to_nat (Z.of_nat i + 8 - (Z.of_nat i + 5))) with 3 in Hp by lia.
    replace (Z.to_nat (Z.of_nat i + 5)) with (i + 5) in Hp by lia.
    destruct (scanConnection _); [|discriminate]. now injection Hp as <- _.
  - assert ((Z.of_nat (length request) >? Z.of_nat i + 8)%Z = false) as Hc.
    { destruct (Z.gtb_spec (Z.of_nat (length request)) (Z.of_nat i + 8));
        [lia | reflexivity]. }
    rewrite Hc, andb_false_r in Hp.
    destruct (scanConnection _); [|discriminate].
    injection Hp as <- _. split; reflexivity.
Qed.

(** ** [copyData] with any destination *)

Lemma Write_general (p : bytes) (w : writer) :
  exists n e w',
    Write p w = ((n, e), w') /\ n <= length p
    /\ written w' = written w ++ firstn n p.
Proof.
  unfold Write. destruct (responses w) as [|[k e] rest].
  - exists (length p), None, (mkWriter (written w ++ p) []).
    simpl. rewrite firstn_all. auto.
  - do 3 eexists. split; [reflexivity|]. simpl. split; [lia | reflexivity].
Qed.

Lemma firstn_firstn_skipn (n m : nat) (l : bytes) :
  firstn n l ++ firstn m (skipn n l) = firstn (n + m) l.
Proof.
  revert l; induction n as [|n IH]; intros l; [reflexivity|].
  destruct l as [|x l]; simpl.
  - now rewrite firstn_nil.
  - now rewrite IH.
Qed.

(** The retry loop writes more of the chunk, in order, and all of the rest
    when it reports no error. *)
Lemma flush_loop_general (fuel : nat) :
  forall (dst : writer) (chunk : bytes) (offset : nat) err dst',
    flush_loop fuel dst chunk offset = Some (err, dst') ->
    offset <= length chunk ->
    exists m,
      offset + m <= length chunk
      /\ written dst' = written dst ++ firstn m (skipn offset chunk)
      /\ (err = None -> offset + m = length chunk).
Proof.
  induction fuel as [|fuel IH]; intros dst chunk offset err dst'; simpl;
    destruct (Nat.leb_spec (length chunk) offset) as [Hge|Hlt];
    try discriminate.
  - intros [= <- <-] Ho. exists 0. rewrite app_nil_r. repeat split; lia.
  - intros [= <- <-] Ho. exists 0. rewrite app_nil_r. repeat split; lia.
  - destruct (Write_general (skipn offset chunk) dst) as (n & e & d1 & -> & Hn & Hw).
    rewrite length_skipn in Hn.
    destruct e as [e|].
    + intros [= <- <-] _. exists n. repeat split; [lia | exact Hw | discriminate].
    + intros H _.
      destruct (IH _ _ _ _ _ H ltac:(lia)) as (m & Hm & Hw' & Hnone).
      exists (n + m). split; [lia|]. split.
      * rewrite Hw', Hw, <- app_assoc. f_equal.
        rewrite (Nat.add_comm offset n), <- skipn_skipn.
        apply firstn_firstn_skipn.
      * intros He. specialize (Hnone He). lia.
Qed.

Lemma copyChunk_general (dst : writer) (chunk : bytes) err dst' :
  copyChunk dst chunk = Some (err, dst') ->
  exists m,
    m <= length chunk
    /\ written dst' = written dst ++ firstn m chunk
    /\ (err = None -> m = length chunk).
Proof.
  unfold copyChunk.
  destruct (Write_general chunk dst) as (n & e & d1 & -> & Hn & Hw).
  destruct e as [e|].
  - intros [= <- <-]. exists n. repeat split; [lia | exact Hw | discriminate].
  - destruct (Nat.ltb_spec n (length chunk)) as [Hlt|Hge].
    + intros H.
      destruct (flush_loop_general _ _ _ _ _ _ H Hn) as (m & Hm & Hw' & Hnone).
      exists (n + m). split; [lia|]. split.
      * rewrite Hw', Hw, <- app_assoc. f_equal. apply firstn_firstn_skipn.
      * exact Hnone.
    + intros [= <- <-]. exists n. repeat split; auto; lia.
Qed.

Lemma copyData_loop_general (fuel : nat) :
  forall (dst : writer) (src : reader) err dst' src',
    copyData_loop fuel dst src = Some (err, dst', src') ->
    (exists k, written dst' = written dst ++ firstn k (delivered src))
    /\ (err = None ->
        written dst' = written dst ++ delivered src
        /\ ending src = io_EOF /\ src' = remaining src).
Proof.
  induction fuel as [|fuel IH]; intros dst src err dst' src'; simpl; [discriminate|].
  pose proof (Read_spec bufSize32K src bufSize32K_pos) as HR.
  destruct (Read bufSize32K src) as [[chunk readErr] s1].
  assert (forall e d,
             (if 0 <? length chunk then copyChunk dst chunk else Some (None, dst))
             = Some (e, d) ->
             exists m, m <= length chunk
                       /\ written d = written dst ++ firstn m chunk
                       /\ (e = None -> m = length chunk)) as Hchunk.
  { intros e d. destruct (Nat.ltb_spec 0 (length chunk)).
    - apply copyChunk_general.
    - intros [= <- <-]. exists 0. rewrite app_nil_r. repeat split; lia. }
  destruct (if 0 <? length chunk then copyChunk dst chunk else Some (None, dst))
    as [[[e|] d1]|]; [| |discriminate].
  - intros [= <- <- <-].
    destruct (Hchunk _ _ eq_refl) as (m & Hm & Hw & _).
    split; [|discriminate]. exists m. rewrite Hw. f_equal.
    assert (exists t, delivered src = chunk ++ t) as (t & ->).
    { destruct readErr; [exists [] | exists (delivered s1)];
        destruct HR as (-> & _); now rewrite ?app_nil_r. }
    rewrite firstn_app. replace (m - length chunk) with 0 by lia.
    now rewrite firstn_O, app_nil_r.
  - destruct (Hchunk _ _ eq_refl) as (m & Hm & Hw & Hall).
    specialize (Hall eq_refl). subst m. rewrite firstn_all in Hw.
    destruct readErr as [e|].
    + destruct HR as (HD & HE & HRm & _). subst e.
      assert (written d1 = written dst ++ delivered src) as Hfull by now rewrite HD.
      destruct (ending src) eqn:Eend; intros [= <- <- <-];
        (split; [exists (length (delivered src)); now rewrite firstn_all|]);
        try discriminate.
      intros _. auto.
    + destruct HR as (HD & HE & HRm & _).
      intros H. destruct (IH _ _ _ _ _ H) as ((k & Hk) & Hnone).
      split.
      * exists (length chunk + k). rewrite Hk, Hw, HD, <- app_assoc. f_equal.
        now rewrite firstn_app_2.
      * intros He. destruct (Hnone He) as (Hw' & Hend & Hrem).
        rewrite Hw', Hw, HD, HE, HRm, <- app_assoc. auto.
Qed.

(** X4.  Whatever the destination does (errors, short writes) and however
    the copy ends, what [copyData] has written is a prefix of the bytes the
    source delivered: it never invents, repeats, skips or reorders a byte. *)
Theorem copyData_writes_a_prefix (dst : writer) (src : reader) err dst' src' :
  copyData dst src = Some (err, dst', src') ->
  exists k, written dst' = written dst ++ firstn k (delivered src).
Proof.
  intros H. exact (proj1 (copyData_loop_general _ _ _ _ _ _ H)).
Qed.

Lemma copyData_writes_a_prefix_witness :
  exists k,
    B "abc" = [] ++ firstn k (delivered [(B "ab", None); (B "cdef", None)]).
Proof.
  apply (copyData_writes_a_prefix
           (mkWriter [] [(2, None); (1, None); (0, Some (net_error 32))])
           [(B "ab", None); (B "cdef", None)]
           (Some (ErrorfW "write error: %w" (net_error 32)))
           (mkWriter (B "abc") []) []).
  reflexivity.
Defined.

(** X5.  A [nil] from [copyData] means the copy is complete, whatever the
    destination is: every byte the source delivered has been written, in
    order, and the source ended with [io.EOF]. *)
Theorem copyData_nil_is_complete (dst : writer) (src : reader) dst' src' :
  copyData dst src = Some (None, dst', src') ->
  written dst' = written dst ++ delivered src
  /\ ending src = io_EOF /\ src' = remaining src.
Proof.
  intros H. exact (proj2 (copyData_loop_general _ _ _ _ _ _ H) eq_refl).
Qed.

Lemma copyData_nil_is_complete_witness :
  B ">abcdef"
  = B ">" ++ delivered [(B "ab", None); ([], None); (B "cdef", Some io_EOF);
                        (B "late", None)]
  /\ ending [(B "ab", None); ([], None); (B "cdef", Some io_EOF); (B "late", None)]
     = io_EOF
  /\ [(B "late", None)]
     = remaining [(B "ab", None); ([], None); (B "cdef", Some io_EOF); (B "late", None)].
Proof.
  apply (copyData_nil_is_complete
           (mkWriter (B ">") [(1, None); (0, None); (5, None)])
           [(B "ab", None); ([], None); (B "cdef", Some io_EOF); (B "late", None)]
           (mkWriter (B ">abcdef") []) [(B "late", None)]).
  reflexivity.
Defined.

(** ** The header scan and the response relay with any upstream *)

(** The scan reads no byte beyond the ones it has put in its buffer. *)
Lemma readHeader_loop_conserves (fuel : nat) :
  forall (r : reader) (buf raw : bytes) (r' : reader),
    readHeader_loop fuel r buf = Some (inr raw, r') ->
    raw ++ delivered r' = buf ++ delivered r /\ ending r' = ending r.
Proof.
  induction fuel as [|fuel IH]; intros r buf raw r'; simpl; [discriminate|].
  pose proof (Read_spec 1 r ltac:(lia)) as HR.
  destruct (Read 1 r) as [[tmp [e|]] r1]; [discriminate|].
  destruct HR as (HD & HE & _).
  assert ((if 0 <? length tmp then buf ++ tmp else buf) = buf ++ tmp) as ->
    by (destruct tmp; [now rewrite app_nil_r | reflexivity]).
  destruct (Contains (buf ++ tmp) CRLFCRLF).
  - intros [= <- <-]. now rewrite HD, HE, app_assoc.
  - intros H. destruct (IH _ _ _ _ H) as (H1 & H2).
    now rewrite H1, H2, HD, HE, app_assoc.
Qed.

(** X6.  When the header scan stops at a terminator it has consumed the
    header block and nothing else: the block followed by what the upstream
    still has to deliver is what the upstream had to deliver before, and
    the block ends with its only terminator.  No body byte is read ahead. *)
Theorem readHeader_reads_no_body_byte (r : reader) (raw : bytes) (r' : reader) :
  readHeader r = Some (inr raw, r') ->
  exists headerSection,
    raw = headerSection ++ CRLFCRLF
    /\ delivered r = headerSection ++ CRLFCRLF ++ delivered r'
    /\ Contains headerSection CRLFCRLF = false
    /\ ending r' = ending r /\ remaining r' = remaining r.
Proof.
  intros H. unfold readHeader in H.
  destruct (readHeader_loop_conserves _ _ _ _ _ H) as (Hc & He).
  change ([] ++ delivered r) with (delivered r) in Hc.
  pose proof (readHeader_loop_remaining _ _ _ _ _ H) as Hr. cbn in Hr.
  apply readHeader_loop_endsAtFirst in H; [|reflexivity].
  pose proof H as (h & -> & Hi). exists h.
  split; [reflexivity|]. split; [now rewrite <- Hc, <- app_assoc|].
  split; [|auto].
  apply (endsAtFirst_prefix _ _ h CRLFCRLF H); [reflexivity | discriminate].
Qed.

Lemma readHeader_reads_no_body_byte_witness :
  exists headerSection,
    B "HTTP/1.1 204 No Content" ++ CRLFCRLF = headerSection ++ CRLFCRLF
    /\ delivered [(B "HTTP/1.1 204 No Content" ++ CRLFCRLF ++ B "next", None);
                  (B "more", Some (net_error 104))]
       = headerSection ++ CRLFCRLF
         ++ delivered [(B "next", None); (B "more", Some (net_error 104))]
    /\ Contains headerSection CRLFCRLF = false
    /\ ending [(B "next", None); (B "more", Some (net_error 104))]
       = ending [(B "HTTP/1.1 204 No Content" ++ CRLFCRLF ++ B "next", None);
                 (B "more", Some (net_error 104))]
    /\ remaining [(B "next", None); (B "more", Some (net_error 104))]
       = remaining [(B "HTTP/1.1 204 No Content" ++ CRLFCRLF ++ B "next", None);
                    (B "more", Some (net_error 104))].
Proof.
  apply (readHeader_reads_no_body_byte
           [(B "HTTP/1.1 204 No Content" ++ CRLFCRLF ++ B "next", None);
            (B "more", Some (net_error 104))]
           (B "HTTP/1.1 204 No Content" ++ CRLFCRLF)
           [(B "next", None); (B "more", Some (net_error 104))]).
  reflexivity.
Defined.

Lemma Read1_scanned_error (r : reader) tmp e r' :
  Read 1 r = ((tmp, Some e), r') -> scanned r = [].
Proof.
  destruct r as [|[bs err] rest]; simpl; [reflexivity|].
  destruct (Z.leb_spec (len bs) 1) as [Hle|Hgt]; [|discriminate].
  destruct bs as [|b [|b' bs]];
    try (unfold len in Hle; simpl in Hle; lia);
    now intros [= _ -> _].
Qed.

(** The scan finds the terminator that the bytes it can accumulate hold. *)
Lemma readHeader_loop_finds (fuel : nat) :
  forall (r : reader) (buf : bytes),
    Contains (buf ++ scanned r) CRLFCRLF = true ->
    Contains buf CRLFCRLF = false ->
    pending r < fuel ->
    exists raw r', readHeader_loop fuel r buf = Some (inr raw, r').
Proof.
  induction fuel as [|fuel IH]; intros r buf Hs Hb Hf; [lia|].
  simpl. pose proof (Read_spec 1 r ltac:(lia)) as HR.
  pose proof (Read1_scanned r) as HS.
  destruct (Read 1 r) as [[tmp [e|]] r1] eqn:ER.
  - rewrite (Read1_scanned_error _ _ _ _ ER), app_nil_r in Hs. congruence.
  - destruct HR as (_ & _ & _ & HP & _).
    assert ((if 0 <? length tmp then buf ++ tmp else buf) = buf ++ tmp) as ->
      by (destruct tmp; [now rewrite app_nil_r | reflexivity]).
    destruct (Contains (buf ++ tmp) CRLFCRLF) eqn:E; [eauto|].
    apply IH; [|assumption|lia]. now rewrite <- app_assoc, <- HS.
Qed.

Lemma scanned_prefix (r : reader) : exists t, delivered r = scanned r ++ t.
Proof.
  induction r as [|[bs [e|]] rest IH]; simpl.
  - now exists [].
  - destruct bs as [|b bs]; [now exists []|].
    exists [last (b :: bs) b]. apply app_removelast_last. discriminate.
  - destruct IH as (t & ->). exists t. now rewrite app_assoc.
Qed.

Lemma HasPrefix_app_long (p t sep : bytes) :
  length sep <= length p -> HasPrefix (p ++ t) sep = HasPrefix p sep.
Proof.
  revert p; induction sep as [|x sep IH]; intros p Hl;
    [now destruct p, t|].
  destruct p as [|c p]; simpl in *; [lia|].
  rewrite IH by lia. reflexivity.
Qed.

(** The first instance in a string is the first one in every extension. *)
Lemma IndexNat_app (p t sep : bytes) (i : nat) :
  IndexNat p sep = Some i -> IndexNat (p ++ t) sep = Some i.
Proof.
  revert i; induction p as [|x p IH]; intros i H.
  - rewrite IndexNat_unfold in H. rewrite IndexNat_unfold.
    destruct (HasPrefix [] sep) eqn:E; [|discriminate].
    destruct sep; [|discriminate]. now destruct t.
  - destruct (IndexNat_Some _ _ _ H) as (a & c & Hs & _).
    assert (length sep <= length (x :: p)) as Hl
      by (rewrite Hs, !length_app; lia).
    rewrite IndexNat_unfold in H.
    change ((x :: p) ++ t) with (x :: (p ++ t)). rewrite IndexNat_unfold.
    change (x :: (p ++ t)) with ((x :: p) ++ t).
    rewrite (HasPrefix_app_long _ t _ Hl).
    destruct (HasPrefix (x :: p) sep); [exact H|].
    destruct (IndexNat p sep) as [j|] eqn:Ej; [|discriminate].
    now rewrite (IH j eq_refl).
Qed.

(** X7.  The response relay to a client that accepts its writes, for any
    upstream whose scan reaches a terminator: the client receives the bytes
    the upstream delivered, with [\r\nFoo: Bar] put in just before the first
    CR LF CR LF and not another byte changed, whatever the header lines
    are; the upstream is read up to its first error report; the relay
    returns [nil] when that report is [io.EOF] and the read error
    otherwise. *)
Theorem proxyResponse_inserts_before_first_terminator
  (upstream client : conn) (i : nat) :
  IndexNat (scanned (rx upstream)) CRLFCRLF = Some i ->
  responses (tx client) = [] ->
  proxyResponseWithHeaderInjection upstream client
  = Some (copyResult (ending (rx upstream)),
          withRx upstream (remaining (rx upstream)),
          withTx client
            (mkWriter (written (tx client)
                       ++ firstn i (delivered (rx upstream))
                       ++ (CRLF ++ B "Foo: Bar")
                       ++ skipn i (delivered (rx upstream))) [])).
Proof.
  intros Hi Ha.
  assert (Contains (scanned (rx upstream)) CRLFCRLF = true) as Hs.
  { destruct (IndexNat_Some _ _ _ Hi) as (a & c & H & _).
    apply Contains_iff. now exists a, c. }
  destruct (readHeader_loop_finds (S (pending (rx upstream))) (rx upstream) []
              Hs eq_refl ltac:(lia)) as (raw & r' & HR).
  destruct (readHeader_loop_conserves _ _ _ _ _ HR) as (Hc & He).
  change ([] ++ delivered (rx upstream)) with (delivered (rx upstream)) in Hc.
  pose proof (readHeader_loop_remaining _ _ _ _ _ HR) as Hr. cbn in Hr.
  pose proof (readHeader_loop_endsAtFirst _ _ [] _ _ eq_refl HR) as (h & -> & Hh).
  assert (i = length h) as ->.
  { destruct (scanned_prefix (rx upstream)) as (t & Ht).
    pose proof (IndexNat_app _ t _ _ Hi) as H1. rewrite <- Ht in H1.
    pose proof (IndexNat_app _ (delivered r') _ _ Hh) as H2. rewrite Hc in H2.
    congruence. }
  assert (firstn (length h) (delivered (rx upstream)) = h) as ->.
  { rewrite <- Hc, <- app_assoc, firstn_app, firstn_all, Nat.sub_diag, firstn_O.
    apply app_nil_r. }
  assert (skipn (length h) (delivered (rx upstream)) = CRLFCRLF ++ delivered r')
    as ->.
  { rewrite <- Hc, <- app_assoc, skipn_app, skipn_all, Nat.sub_diag. reflexivity. }
  unfold proxyResponseWithHeaderInjection, readHeader. rewrite HR.
  rewrite (SplitN_endsAtFirst _ _ Hh), (Write_accepting _ _ Ha).
  cbn [length Nat.ltb Nat.leb rx tx withRx].
  unfold copyData. rewrite copyData_loop_accepting by lia.
  rewrite He, Hr, injectHeader_appends.
  unfold withRx, withTx. cbn [rx tx written]. do 4 f_equal.
  now rewrite <- !app_assoc.
Qed.

Lemma proxyResponse_inserts_before_first_terminator_witness :
  proxyResponseWithHeaderInjection
    (mkConn [(B "HTTP/1.0 200 OK" ++ [LF] ++ B "X:" ++ CRLF ++ CRLF ++ CRLF ++ B "a", None);
             (B "b", Some (net_error 104)); (B "later", None)] (mkWriter [] []))
    (mkConn [] (mkWriter (B ">") []))
  = Some (Some (ErrorfW "read error: %w" (net_error 104)),
          mkConn [(B "later", None)] (mkWriter [] []),
          mkConn [] (mkWriter
                       (B ">" ++ B "HTTP/1.0 200 OK" ++ [LF] ++ B "X:"
                        ++ (CRLF ++ B "Foo: Bar")
                        ++ CRLF ++ CRLF ++ CRLF ++ B "ab") [])).
Proof.
  apply (proxyResponse_inserts_before_first_terminator
           (mkConn [(B "HTTP/1.0 200 OK" ++ [LF] ++ B "X:" ++ CRLF ++ CRLF ++ CRLF ++ B "a",
                     None);
                    (B "b", Some (net_error 104)); (B "later", None)] (mkWriter [] []))
           (mkConn [] (mkWriter (B ">") [])) 18).
  - reflexivity.
  - reflexivity.
Defined.

(** X13.  When the client answers the write of the header block with an
    error, the relay returns that error, wrapped as the header-write error,
    after reading the upstream up to the first terminator and not a byte
    further: the whole body is still unread on the upstream connection, and
    the client has received at most the part of the new header block that
    its failing write accepted. *)
Theorem proxyResponse_header_write_error
  (upstream client : conn) (i k : nat) (e : error) (rest : list (nat * option error)) :
  IndexNat (scanned (rx upstream)) CRLFCRLF = Some i ->
  responses (tx client) = (k, Some e) :: rest ->
  exists urx,
    proxyResponseWithHeaderInjection upstream client
    = Some (Some (ErrorfW "error writing modified headers to client: %w" e),
            withRx upstream urx,
            withTx client
              (mkWriter (written (tx client)
                         ++ firstn k (firstn i (delivered (rx upstream))
                                      ++ CRLF ++ B "Foo: Bar" ++ CRLFCRLF)) rest))
    /\ delivered urx = skipn (i + 4) (delivered (rx upstream))
    /\ ending urx = ending (rx upstream).
Proof.
  intros Hi Ha.
  assert (Contains (scanned (rx upstream)) CRLFCRLF = true) as Hs.
  { destruct (IndexNat_Some _ _ _ Hi) as (a & c & H & _).
    apply Contains_iff. now exists a, c. }
  destruct (readHeader_loop_finds (S (pending (rx upstream))) (rx upstream) []
              Hs eq_refl ltac:(lia)) as (raw & r' & HR).
  destruct (readHeader_loop_conserves _ _ _ _ _ HR) as (Hc & He).
  change ([] ++ delivered (rx upstream)) with (delivered (rx upstream)) in Hc.
  pose proof (readHeader_loop_endsAtFirst _ _ [] _ _ eq_refl HR) as (h & -> & Hh).
  assert (i = length h) as ->.
  { destruct (scanned_prefix (rx upstream)) as (t & Ht).
    pose proof (IndexNat_app _ t _ _ Hi) as H1. rewrite <- Ht in H1.
    pose proof (IndexNat_app _ (delivered r') _ _ Hh) as H2. rewrite Hc in H2.
    congruence. }
  exists r'.
  assert (firstn (length h) (delivered (rx upstream)) = h) as ->.
  { rewrite <- Hc, <- app_assoc, firstn_app, firstn_all, Nat.sub_diag, firstn_O.
    apply app_nil_r. }
  assert (skipn (length h + 4) (delivered (rx upstream)) = delivered r') as ->.
  { rewrite <- Hc. change 4 with (length CRLFCRLF).
    now rewrite <- length_app, skipn_app, skipn_all, Nat.sub_diag. }
  split; [|split; [reflexivity | exact He]].
  unfold proxyResponseWithHeaderInjection, readHeader. rewrite HR.
  rewrite (SplitN_endsAtFirst _ _ Hh), injectHeader_appends.
  unfold Write. rewrite Ha. cbv zeta.
  do 4 f_equal.
  destruct (Nat.min_spec k (length (h ++ CRLF ++ B "Foo: Bar" ++ CRLFCRLF)))
    as [(_ & ->)|(Hle & ->)]; [reflexivity|].
  now rewrite firstn_all, firstn_all2 by exact Hle.
Qed.

Lemma proxyResponse_header_write_error_witness :
  exists urx,
    proxyResponseWithHeaderInjection
      (mkConn [(B "HTTP/1.1 200 OK" ++ CRLFCRLF ++ B "body", None)] (mkWriter [] []))
      (mkConn [] (mkWriter [] [(4, Some (net_error 32)); (9, None)]))
    = Some (Some (ErrorfW "error writing modified headers to client: %w" (net_error 32)),
            mkConn urx (mkWriter [] []),
            mkConn [] (mkWriter (B "HTTP") [(9, None)]))
    /\ delivered urx = B "body"
    /\ ending urx = io_EOF.
Proof.
  apply (proxyResponse_header_write_error
           (mkConn [(B "HTTP/1.1 200 OK" ++ CRLFCRLF ++ B "body", None)] (mkWriter [] []))
           (mkConn [] (mkWriter [] [(4, Some (net_error 32)); (9, None)]))
           15 4 (net_error 32) [(9, None)]).
  - reflexivity.
  - reflexivity.
Defined.

(** ** The client-to-upstream loop of [proxyData] *)

Lemma proxyData_loop_accepting (fuel : nat) (src : reader) (w : bytes) :
  pending src < fuel ->
  proxyData_loop fuel src (mkWriter w [])
  = Some (readLog (ending src), remaining src, mkWriter (w ++ delivered src) []).
Proof.
  intros Hf.
  destruct (proxyData_loop_errorFree fuel src (mkWriter w []) (Forall_nil _) Hf)
    as ([w' rs] & -> & _ & Hacc).
  destruct (Hacc eq_refl) as (Hw & Hr). simpl in Hw, Hr. now subst.
Qed.

(** X9.  The passthrough of [proxyData] to a destination that accepts its
    writes: the destination receives the bytes of the source up to its
    first error report, in order and nothing else; the source is read up to
    that report and no further; an error other than [io.EOF] is logged, and
    the caller is told nothing. *)
Theorem proxyData_passthrough (srcConn destConn : conn) (proxyDir : string) :
  proxyDir <> "UPSTREAM -> CLIENT"%string ->
  responses (tx destConn) = [] ->
  proxyData srcConn destConn proxyDir
  = Some (readLog (ending (rx srcConn)),
          withRx srcConn (remaining (rx srcConn)),
          withTx destConn
            (mkWriter (written (tx destConn) ++ delivered (rx srcConn)) [])).
Proof.
  intros Hd Ha. unfold proxyData.
  destruct (String.eqb_spec proxyDir "UPSTREAM -> CLIENT") as [|_]; [contradiction|].
  destruct (tx destConn) as [w rs] eqn:E. simpl in Ha. subst rs.
  now rewrite proxyData_loop_accepting by lia.
Qed.

Lemma proxyData_passthrough_witness :
  proxyData (mkConn [(B "ab", None); (B "c", Some (net_error 104)); (B "d", None)]
                    (mkWriter [] []))
            (mkConn [] (mkWriter (B "sent:") [])) "CLIENT -> UPSTREAM"
  = Some ([Printf "Error reading data: %v" (net_error 104)],
          mkConn [(B "d", None)] (mkWriter [] []),
          mkConn [] (mkWriter (B "sent:abc") [])).
Proof.
  apply (proxyData_passthrough
           (mkConn [(B "ab", None); (B "c", Some (net_error 104)); (B "d", None)]
                   (mkWriter [] []))
           (mkConn [] (mkWriter (B "sent:") [])) "CLIENT -> UPSTREAM").
  - discriminate.
  - reflexivity.
Defined.

(** ** Sessions: what every run does *)

Lemma proxyData_loop_quiet (fuel : nat) :
  forall (src : reader) (dst : writer) log src' dst',
    proxyData_loop fuel src dst = Some (log, src', dst') -> Forall quiet log.
Proof.
  induction fuel as [|fuel IH]; intros src dst log src' dst'; simpl; [discriminate|].
  destruct (Read bufSize4K src) as [[chunk err] s1].
  destruct (if 0 <? length chunk then Write chunk dst else (0, None, dst))
    as [[n [we|]] d1].
  - intros [= <- _ _]. repeat constructor.
  - destruct err as [[]|]; try (intros [= <- _ _]; repeat constructor).
    apply IH.
Qed.

Lemma proxyData_quiet (srcConn destConn : conn) (proxyDir : string) log s' d' :
  proxyData srcConn destConn proxyDir = Some (log, s', d') -> Forall quiet log.
Proof.
  unfold proxyData. destruct (String.eqb proxyDir "UPSTREAM -> CLIENT").
  - destruct (proxyResponseWithHeaderInjection _ _) as [[[err u] c]|];
      [|discriminate].
    intros [= <- _ _]. constructor.
  - destruct (proxyData_loop _ _ _) as [[[l srx] dtx]|] eqn:E; [|discriminate].
    intros [= <- _ _]. now apply proxyData_loop_quiet in E.
Qed.

(** The loop of a session neither dials nor closes. *)
Lemma session_loop_quiet (fuel : nat) :
  forall (clientConn upstreamConn : conn) log c u,
    session_loop fuel clientConn upstreamConn = Some (log, c, u) ->
    Forall quiet log.
Proof.
  induction fuel as [|fuel IH]; intros clientConn upstreamConn log c u;
    [discriminate|].
  rewrite session_loop_unfold.
  destruct (Read bufSize4K (rx clientConn)) as [[request [e|]] crx]; cbv zeta.
  - destruct e; intros [= <- _ _]; repeat constructor.
  - destruct (length request =? 0); [intros [= <- _ _]; constructor|].
    destruct (parseHTTPHeaders request) as [[version connectionHeader]|];
      [|intros [= <- _ _]; repeat constructor].
    destruct (Write request (tx upstreamConn)) as [[n [e|]] utx]; cbv zeta;
      [intros [= <- _ _]; repeat constructor|].
    destruct (proxyData _ _ "UPSTREAM -> CLIENT") as [[[log1 u1] c1]|] eqn:E1;
      [|discriminate].
    destruct (proxyData c1 u1 "CLIENT -> UPSTREAM") as [[[log2 c2] u2]|] eqn:E2;
      [|discriminate].
    apply proxyData_quiet in E1, E2.
    destruct (shouldKeepAlive version connectionHeader).
    + destruct (session_loop fuel c2 u2) as [[[log' c'] u']|] eqn:E3; [|discriminate].
      intros [= <- _ _]. apply IH in E3.
      repeat (apply Forall_app; split); auto. constructor; [exact I | assumption].
    + intros [= <- _ _].
      repeat (apply Forall_app; split); auto. repeat constructor.
Qed.

Lemma quiet_dials (log : list effect) : Forall quiet log -> dials log = 0.
Proof.
  unfold dials. induction 1 as [|e log He _ IH]; [reflexivity|].
  destruct e; simpl in *; try assumption. contradiction.
Qed.

Lemma dials_app (a b : list effect) : dials (a ++ b) = dials a + dials b.
Proof. unfold dials. now rewrite filter_app, length_app. Qed.

(** The shape of the trace of a session, whatever ends it. *)
Lemma handleProxyConnection_trace (clientConn : conn) (dial : error + conn)
  trace c u :
  handleProxyConnection clientConn dial = Some (trace, c, u) ->
  exists log,
    Forall quiet log
    /\ trace = Dial :: log
               ++ (match dial with inl _ => [] | inr _ => [Close Upstream] end)
               ++ [Close Client]
    /\ dials trace = 1.
Proof.
  unfold handleProxyConnection. destruct dial as [e|upstreamConn].
  - intros [= <- _ _]. exists [Printf "Error connecting to upstream: %v" e].
    split; [repeat constructor|]. split; reflexivity.
  - destruct (session_loop _ _ _) as [[[log c'] u']|] eqn:E; [|discriminate].
    intros [= <- _ _]. apply session_loop_quiet in E.
    exists log. split; [assumption|]. split; [reflexivity|].
    change (Dial :: log ++ [Close Upstream; Close Client])
      with ([Dial] ++ log ++ [Close Upstream; Close Client]).
    now rewrite !dials_app, (quiet_dials _ E).
Qed.

(** X10.  Every run of a session, whatever ends it (end-of-stream, a read
    or write error, a panic of the parser, the keep-alive decision), dials
    exactly once, at the start, and ends by closing the connections it
    holds: the upstream connection, if the dial gave one, and then the
    client connection.  Nothing is dialed or closed in between. *)
Theorem handleProxyConnection_releases_connections
  (clientConn : conn) (dial : error + conn) trace c u :
  handleProxyConnection clientConn dial = Some (trace, c, u) ->
  exists log,
    Forall quiet log
    /\ trace = Dial :: log
               ++ (match dial with inl _ => [] | inr _ => [Close Upstream] end)
               ++ [Close Client]
    /\ dials trace = 1
    /\ (u = None <-> exists e, dial = inl e).
Proof.
  intros H. destruct (handleProxyConnection_trace _ _ _ _ _ H) as (log & Hq & Ht & Hd).
  exists log. repeat split; auto.
  - intros ->. unfold handleProxyConnection in H. destruct dial as [e|up]; [eauto|].
    destruct (session_loop _ _ _) as [[[l c'] u']|]; discriminate.
  - intros (e & ->). now injection H as _ _ <-.
Qed.

(** ** Sessions: cycles and the reports of the client *)

Lemma cycles_app (a b : list effect) : cycles (a ++ b) = cycles a + cycles b.
Proof. unfold cycles. now rewrite filter_app, length_app. Qed.

Lemma cycles_readLog (e : error) : cycles (readLog e) = 0.
Proof. now destruct e. Qed.

Lemma Read_reports (cap : Z) (r : reader) :
  match Read cap r with
  | ((_, None), r') => reports r' = reports r
  | _ => True
  end.
Proof.
  destruct r as [|[bs e] rest]; simpl; [exact I|].
  destruct (len bs <=? cap)%Z; [|reflexivity].
  now destruct e.
Qed.

Lemma cyclesLeft_remaining (r : reader) : cyclesLeft (remaining r) <= reports r.
Proof.
  induction r as [|[bs [e|]] rest IH]; simpl; try lia.
  destruct rest; simpl; lia.
Qed.

Lemma clean_reports (r : reader) : clean r -> reports r = 0.
Proof.
  induction 1 as [|[bs e] rest He _ IH]; [reflexivity|].
  simpl in He. now subst e.
Qed.

Lemma session_loop_cycles (fuel : nat) :
  forall (clientConn upstreamConn : conn) log c u,
    errorFree (tx upstreamConn) ->
    session_loop fuel clientConn upstreamConn = Some (log, c, u) ->
    cycles log <= cyclesLeft (rx clientConn).
Proof.
  induction fuel as [|fuel IH]; intros clientConn upstreamConn log c u Hu;
    [discriminate|].
  rewrite session_loop_unfold.
  pose proof (Read_reports bufSize4K (rx clientConn)) as HRp.
  destruct (rx clientConn) as [|ev crest] eqn:Erx.
  { simpl. intros [= <- _ _]. reflexivity. }
  rewrite <- Erx in *.
  assert (cyclesLeft (rx clientConn) = S (reports (rx clientConn))) as ->
    by now rewrite Erx.
  clear Erx ev crest.
  destruct (Read bufSize4K (rx clientConn)) as [[request [e|]] crx]; cbv zeta.
  - destruct e; intros [= <- _ _]; unfold cycles; simpl; lia.
  - destruct (length request =? 0); [intros [= <- _ _]; unfold cycles; simpl; lia|].
    destruct (parseHTTPHeaders request) as [[version connectionHeader]|];
      [|intros [= <- _ _]; unfold cycles; simpl; lia].
    destruct (Write_errorFree request (tx upstreamConn) Hu)
      as (n & utx & -> & _ & _ & Hutx & _). cbv zeta.
    destruct (proxyData _ _ "UPSTREAM -> CLIENT") as [[[log1 u1] c1]|] eqn:E1;
      [|discriminate].
    destruct (proxyData_frame _ _ _ _ _ E1) as (-> & Htx & Hrx).
    cbn [tx rx withTx withRx] in Htx, Hrx.
    assert (errorFree (tx u1)) as Hu1 by now rewrite Htx.
    destruct (proxyData_client_to_upstream c1 u1 Hu1) as (utx2 & -> & Hutx2).
    rewrite Hrx.
    pose proof (cyclesLeft_remaining crx) as Hleft. rewrite HRp in Hleft.
    destruct (shouldKeepAlive version connectionHeader).
    + destruct (session_loop fuel _ _) as [[[log' c'] u']|] eqn:E3; [|discriminate].
      intros [= <- _ _].
      apply IH in E3; [|exact Hutx2]. cbn [rx withRx] in E3.
      rewrite !cycles_app, cycles_readLog.
      change (cycles (Println "Connection kept alive for next request." :: log'))
        with (S (cycles log')).
      change (cycles []) with 0. lia.
    + intros [= <- _ _]. rewrite !cycles_app, cycles_readLog.
      change (cycles [Println "Connection closing (not keep-alive)."]) with 1.
      change (cycles []) with 0. lia.
Qed.

(** X11.  A session whose upstream reports no write error never runs more
    cycles than the client's read side holds end-of-stream or error
    reports, plus one: a cycle only ends when the passthrough has met such
    a report.  On a client stream without reports there is at most one
    cycle, however many requests it carries. *)
Theorem session_cycles_bounded_by_reports
  (clientConn upstreamConn : conn) trace c u :
  errorFree (tx upstreamConn) ->
  handleProxyConnection clientConn (inr upstreamConn) = Some (trace, c, u) ->
  cycles trace <= S (reports (rx clientConn))
  /\ (clean (rx clientConn) -> cycles trace <= 1).
Proof.
  intros Hu H. unfold handleProxyConnection in H.
  destruct (session_loop _ _ _) as [[[log c'] u']|] eqn:E; [|discriminate].
  injection H as <- _ _.
  apply session_loop_cycles in E; [|exact Hu].
  assert (cycles (Dial :: log ++ [Close Upstream; Close Client]) = cycles log) as ->.
  { change (Dial :: log ++ [Close Upstream; Close Client])
      with ([Dial] ++ log ++ [Close Upstream; Close Client]).
    rewrite !cycles_app. change (cycles [Dial]) with 0.
    change (cycles [Close Upstream; Close Client]) with 0. lia. }
  assert (cyclesLeft (rx clientConn) <= S (reports (rx clientConn)))
    by (destruct (rx clientConn); simpl; lia).
  split; [lia|]. intros Hc. rewrite (clean_reports _ Hc) in *. lia.
Qed.

(** X12.  One exchange, end to end.  The client's bytes arrive without a
    report before the stream ends, the first chunk whole in one read and
    parsed without panic; the upstream answers a header block and a body
    and ends its stream; both sides accept their writes.  Then the
    upstream has received the client's bytes, unchanged; the client has
    received the response with the line [Foo: Bar] added to the header
    block and nothing else changed; the session has run one cycle, taken
    the keep-alive decision of the first chunk, and closed both
    connections. *)
Theorem session_single_exchange
  (request version connection : bytes) (crest urx : reader)
  (cw uw h body : bytes) :
  oneRead request ->
  parseHTTPHeaders request = Returns (version, connection) ->
  clean crest -> clean urx ->
  delivered urx = (h ++ CRLFCRLF) ++ body ->
  IndexNat (h ++ CRLFCRLF) CRLFCRLF = Some (length h) ->
  handleProxyConnection
    (mkConn ((request, None) :: crest) (mkWriter cw []))
    (inr (mkConn urx (mkWriter uw [])))
  = Some ([Dial;
           if shouldKeepAlive version connection then keptAlive else closing;
           Close Upstream; Close Client],
          mkConn [] (mkWriter (cw ++ (h ++ CRLF ++ B "Foo: Bar" ++ CRLFCRLF) ++ body) []),
          Some (mkConn [] (mkWriter (uw ++ request ++ delivered crest) []))).
Proof.
  intros (Hpos & Hlen) Hparse Hcc Hcu Hd Hi.
  unfold handleProxyConnection. cbn [rx pending].
  rewrite session_loop_unfold. cbn [rx Read].
  apply Z.leb_le in Hlen. rewrite Hlen.
  destruct (Nat.eqb_spec (length request) 0) as [|_]; [lia|].
  rewrite Hparse, Write_accepting by reflexivity. cbn [tx written].
  unfold proxyData at 1. simpl String.eqb. cbv iota.
  rewrite (proxyResponse_clean _ _ h body)
    by first [exact Hcu | exact Hd | exact Hi | reflexivity].
  unfold proxyData. simpl String.eqb. cbv iota.
  unfold withRx, withTx. cbn [rx tx written].
  rewrite proxyData_loop_accepting by lia.
  rewrite (clean_ending _ Hcc), (clean_remaining _ Hcc). cbn [readLog app].
  destruct (shouldKeepAlive version connection).
  - rewrite session_loop_unfold. cbn [rx Read]. cbn [app].
    now rewrite <- !app_assoc.
  - now rewrite <- !app_assoc.
Qed.

(** ** The listener *)





End Proxy.

(** * The model at concrete inputs *)

(** C1, counterexample.  The version " 1.1" (a space before the digits) is
    not the version "1.1", so the table as stated terminates; the code trims
    the version and continues. *)
Lemma shouldKeepAlive_padded_version :
  shouldKeepAlive noCaseMapping (B " 1.1") [] = true
  /\ KeepAliveDecider_table noCaseMapping (B " 1.1") [] = Terminate.
Proof. split; reflexivity. Qed.

Lemma shouldKeepAlive_table_trimmed_version_witness :
  decisionOf (shouldKeepAlive noCaseMapping (B "1.1") (B "close"))
  = KeepAliveDecider_table noCaseMapping (B "1.1") (B "close").
Proof.
  apply (proj2 (shouldKeepAlive_table_trimmed_version noCaseMapping) requestClose).
  reflexivity.
Defined.

(** C3, at the failing input.  The upstream resets the connection before
    any response byte: the response relay returns a read error, which
    [proxyData] drops.  The client pipelines a second and a third request;
    the passthrough fails to write the second to the dead upstream.  The
    session nevertheless takes the keep-alive decision, logs that the
    connection is kept alive, reads the third request as a new cycle and
    only ends when forwarding it fails. *)
Theorem relay_error_does_not_end_session :
  proxyResponseWithHeaderInjection
    (mkConn [([], Some (net_error 104))] (mkWriter requestKeepAlive []))
    (mkConn [] (mkWriter [] []))
  = Some (Some (ErrorfW "error reading response header: %w" (net_error 104)),
          mkConn [] (mkWriter requestKeepAlive []), mkConn [] (mkWriter [] []))
  /\ handleProxyConnection noCaseMapping
       (mkConn [(requestKeepAlive, None); (requestKeepAlive, None);
                (requestKeepAlive, None)] (mkWriter [] []))
       (inr (mkConn [([], Some (net_error 104))]
                    (mkWriter [] [(length requestKeepAlive, None);
                                  (0, Some (net_error 32));
                                  (0, Some (net_error 32))])))
     = Some ([Dial;
              Printf "Error writing data: %v" (net_error 32);
              keptAlive;
              Printf "Error writing to upstream: %v" (net_error 32);
              Close Upstream; Close Client],
             mkConn [] (mkWriter [] []),
             Some (mkConn [] (mkWriter requestKeepAlive []))).
Proof. split; vm_compute; reflexivity. Qed.

(** C7, at the failing input.  The client sends three HTTP/1.1 requests
    without [Connection: close] and a fourth with it, one after the other
    on its connection, and the upstream answers each.  The first cycle
    forwards the first request; its passthrough then forwards the other
    three, never looking at them, and its response relay carries all four
    responses, until both streams end.  The session takes one keep-alive
    decision, that of the first request, finds the client at end-of-stream
    and returns: one cycle, not four, and the request with
    [Connection: close] was never inspected. *)
Theorem session_four_requests_one_cycle :
  exists trace client upstream,
    handleProxyConnection noCaseMapping
      (mkConn [(requestKeepAlive, None); (requestKeepAlive, None);
               (requestKeepAlive, None); (requestClose, None)] (mkWriter [] []))
      (inr (mkConn [(responseOK, None); (responseOK, None);
                    (responseOK, None); (responseOK, None)] (mkWriter [] [])))
    = Some (trace, client, Some upstream)
    /\ trace = [Dial; keptAlive; Close Upstream; Close Client]
    /\ cycles trace = 1 /\ cycles trace <> 4
    /\ written (tx upstream)
       = requestKeepAlive ++ requestKeepAlive ++ requestKeepAlive ++ requestClose.
Proof.
  do 3 eexists. split; [vm_compute; reflexivity|].
  split; [reflexivity|]. split; [reflexivity|].
  split; [vm_compute; discriminate | reflexivity].
Qed.

(** C10, counterexample.  The chunk contains the line [Connection:close],
    but an earlier line starts with [Connection:] too: the scan stops at
    that one, and the value returned is not [lose]. *)
Lemma parseHTTPHeaders_earlier_Connection_line :
  In (B "Connection:close")
     (Split (B "GET / HTTP/1.1" ++ CRLF ++ B "Connection: keep-alive" ++ CRLF
             ++ B "Connection:close" ++ CRLF ++ CRLF) CRLF)
  /\ parseHTTPHeaders
       (B "GET / HTTP/1.1" ++ CRLF ++ B "Connection: keep-alive" ++ CRLF
        ++ B "Connection:close" ++ CRLF ++ CRLF)
     = Returns (B "1.1", B "keep-alive").
Proof. split; [vm_compute; tauto | reflexivity]. Qed.

Lemma parseHTTPHeaders_drops_first_value_byte_witness :
  exists version,
    parseHTTPHeaders
      (B "GET / HTTP/1.1" ++ CRLF ++ B "Connection:close" ++ CRLF ++ CRLF)
    = Returns (version, TrimSpace (B "lose"))
    /\ (version = B "1.1" -> B "close" = B "close" ->
        TrimSpace (B "lose") = B "lose"
        /\ shouldKeepAlive noCaseMapping version (TrimSpace (B "lose")) = true).
Proof.
  apply (parseHTTPHeaders_drops_first_value_byte noCaseMapping
           (B "GET / HTTP/1.1" ++ CRLF ++ B "Connection:close" ++ CRLF ++ CRLF)
           [B "GET / HTTP/1.1"] [[]; []] "c"%char (B "lose")).
  - reflexivity.
  - repeat constructor.
Defined.

Lemma parseHTTPHeaders_no_Connection_line_witness :
  exists version,
    parseHTTPHeaders
      (B "GET / HTTP/1.1" ++ CRLF ++ B "connection: close" ++ CRLF ++ CRLF)
    = Returns (version, [])
    /\ (version = B "1.1" -> shouldKeepAlive noCaseMapping version [] = true).
Proof.
  apply (parseHTTPHeaders_no_Connection_line noCaseMapping
           (B "GET / HTTP/1.1" ++ CRLF ++ B "connection: close" ++ CRLF ++ CRLF)).
  repeat constructor.
Defined.

Lemma parseHTTPHeaders_version_needs_a_byte_after_witness :
  (6 + 8 < 14 -> @nil ascii = firstn 3 (skipn (6 + 5) (B "GET / HTTP/1.1")))
  /\ (14 <= 6 + 8 ->
      @nil ascii = [] /\ shouldKeepAlive noCaseMapping [] [] = false).
Proof.
  apply (parseHTTPHeaders_version_needs_a_byte_after noCaseMapping
           (B "GET / HTTP/1.1") [] [] 6).
  - reflexivity.
  - reflexivity.
Defined.

Lemma handleProxyConnection_releases_connections_witness :
  exists log,
    Forall quiet log
    /\ [Dial; Panicked (SliceBoundsOutOfRange 12 11); Close Upstream; Close Client]
       = Dial :: log ++ [Close Upstream] ++ [Close Client]
    /\ dials [Dial; Panicked (SliceBoundsOutOfRange 12 11); Close Upstream; Close Client]
       = 1
    /\ (Some (mkConn [] (mkWriter [] [])) = None
        <-> exists e, @inr error conn (mkConn [] (mkWriter [] [])) = inl e).
Proof.
  apply (handleProxyConnection_releases_connections noCaseMapping
           (mkConn [(B "GET / HTTP/1.1" ++ CRLF ++ B "Connection:" ++ CRLF ++ CRLF, None)]
                   (mkWriter [] []))
           (inr (mkConn [] (mkWriter [] [])))
           [Dial; Panicked (SliceBoundsOutOfRange 12 11); Close Upstream; Close Client]
           (mkConn [] (mkWriter [] []))
           (Some (mkConn [] (mkWriter [] [])))).
  vm_compute. reflexivity.
Defined.

Lemma session_cycles_bounded_by_reports_witness :
  cycles [Dial; keptAlive; keptAlive; Close Upstream; Close Client]
  <= S (reports [(B "GET / HTTP/1.1" ++ CRLF ++ CRLF, None); eofReport;
                 (B "GET /a HTTP/1.1" ++ CRLF ++ CRLF, None);
                 (B "GET /b HTTP/1.1" ++ CRLF ++ CRLF, None)])
  /\ (clean [(B "GET / HTTP/1.1" ++ CRLF ++ CRLF, None); eofReport;
             (B "GET /a HTTP/1.1" ++ CRLF ++ CRLF, None);
             (B "GET /b HTTP/1.1" ++ CRLF ++ CRLF, None)] ->
      cycles [Dial; keptAlive; keptAlive; Close Upstream; Close Client] <= 1).
Proof.
  apply (session_cycles_bounded_by_reports noCaseMapping
           (mkConn [(B "GET / HTTP/1.1" ++ CRLF ++ CRLF, None); eofReport;
                    (B "GET /a HTTP/1.1" ++ CRLF ++ CRLF, None);
                    (B "GET /b HTTP/1.1" ++ CRLF ++ CRLF, None)] (mkWriter [] []))
           (mkConn [(B "A" ++ CRLF ++ CRLF ++ B "x", Some io_EOF);
                    (B "B" ++ CRLF ++ CRLF, None)]
                   (mkWriter [] [(3, None)]))
           [Dial; keptAlive; keptAlive; Close Upstream; Close Client]
           (mkConn [] (mkWriter (B "A" ++ CRLF ++ B "Foo: Bar" ++ CRLF ++ CRLF ++ B "x"
                                 ++ B "B" ++ CRLF ++ B "Foo: Bar" ++ CRLF ++ CRLF) []))
           (Some (mkConn [] (mkWriter (B "GET" ++ B "GET /a HTTP/1.1" ++ CRLF ++ CRLF
                                       ++ B "GET /b HTTP/1.1" ++ CRLF ++ CRLF) [])))).
  - repeat constructor.
  - vm_compute. reflexivity.
Defined.

Lemma session_single_exchange_witness :
  handleProxyConnection noCaseMapping
    (mkConn ((requestClose, None) :: [(B "tail", None)]) (mkWriter [] []))
    (inr (mkConn [(B "HTTP/1.1 200 OK" ++ CRLF, None);
                  (B "Content-Length: 2" ++ CRLF ++ CRLF ++ B "o", None);
                  (B "k", None)] (mkWriter [] [])))
  = Some ([Dial;
           if shouldKeepAlive noCaseMapping (B "1.1") (B "close")
           then keptAlive else closing;
           Close Upstream; Close Client],
          mkConn [] (mkWriter ([] ++ ((B "HTTP/1.1 200 OK" ++ CRLF ++ B "Content-Length: 2")
                                      ++ CRLF ++ B "Foo: Bar" ++ CRLFCRLF) ++ B "ok") []),
          Some (mkConn [] (mkWriter ([] ++ requestClose ++ delivered [(B "tail", None)]) []))).
Proof.
  apply (session_single_exchange noCaseMapping requestClose (B "1.1") (B "close")
           [(B "tail", None)]
           [(B "HTTP/1.1 200 OK" ++ CRLF, None);
            (B "Content-Length: 2" ++ CRLF ++ CRLF ++ B "o", None); (B "k", None)]
           [] [] (B "HTTP/1.1 200 OK" ++ CRLF ++ B "Content-Length: 2") (B "ok")).
  - split; [vm_compute; lia | vm_compute; discriminate].
  - reflexivity.
  - repeat constructor.
  - repeat constructor.
  - reflexivity.
  - reflexivity.
Defined.

